(** * bot2: the question/answer dispatch core of [api.py]

    A shallow embedding of the [Bot] class of [src/api.py]: the shared
    question queue, the registry of per-question answer queues with its
    lock, the worker body [start_answering], the publisher [queue_answer]
    and the poller [pop_answer]; followed by the properties the
    specification states about them.

    Python values are modelled as follows.
    - [str] is [string]; one [ascii] stands for one character of the
      Python string, so [len] is [String.length] and [s[n:]] drops the
      first [n] characters.
    - [None]-able attributes are [option].
    - [queue.Queue] is a record of its [maxsize] and its items in FIFO
      order.  [task_done] only maintains the counter read by [join], which
      the repository never calls; it is not modelled.
    - [threading.Lock] is a boolean, [true] while some thread holds it.
    - The dictionary [answer_queues] is a [gmap] from question ids to
      queues.  A poller or worker that holds a reference [aq] to a queue of
      the dictionary is modelled by the key under which the queue is
      registered (see [queue_answer_put] for the one place where such a
      reference can outlive the registration).
    - Exceptions and a thread that blocks for ever are outcomes of a small
      state monad over the process state. *)

From Stdlib Require Import String Ascii List Bool Arith Lia.
From stdpp Require Import base option list strings pretty gmap.

Open Scope string_scope.
Open Scope list_scope.
Open Scope nat_scope.

(** ** Python library primitives *)

Inductive exn : Type :=
| Empty                         (* queue.Empty *)
| TypeError                     (* str += None *)
| RuntimeError                  (* release of an unlocked lock *)
| UnboundLocalError             (* a local read before assignment *)
| AdapterFailure (msg : string) (* anything raised by the engine adapter *).

Inductive outcome (A : Type) : Type :=
| Ret (a : A)
| Raise (e : exn)
| Block.
Arguments Ret {A} a.
Arguments Raise {A} e.
Arguments Block {A}.

(** [s[n:]] for [0 <= n]. *)
Fixpoint slice_from (n : nat) (s : string) : string :=
  match n, s with
  | 0, _ => s
  | S _, EmptyString => EmptyString
  | S n', String _ s' => slice_from n' s'
  end.

Module Lock.
(** [threading.Lock]: [true] when locked. *)
Definition t : Type := bool.

Definition new : t := false.

(** [acquire(blocking=True, timeout=1)].  A free lock is taken at once.
    A lock held by another thread is waited for; in a run in which that
    thread does not release it within the timeout the call returns
    [False] and the lock stays with its holder. *)
Definition acquire (l : t) : bool * t :=
  if l then (false, true) else (true, true).

(** [release()]: any thread may release a locked lock; releasing an
    unlocked one raises [RuntimeError]. *)
Definition release (l : t) : option t :=
  if l then Some false else None.
End Lock.

Module Queue.
(** [queue.Queue(maxsize)]: unbounded when [maxsize = 0]. *)
Record t (A : Type) : Type := Make { maxsize : nat; items : list A }.
Arguments Make {A} maxsize items.
Arguments maxsize {A} _.
Arguments items {A} _.

Definition new {A} (maxsize : nat) : t A := Make maxsize [].

Definition qsize {A} (q : t A) : nat := length (items q).

Definition full {A} (q : t A) : bool :=
  (0 <? maxsize q) && (maxsize q <=? qsize q).

(** [put(item)] with the default [block=True]: [None] when the caller
    has to wait for a free slot. *)
Definition put {A} (x : A) (q : t A) : option (t A) :=
  if full q then None else Some (Make (maxsize q) (items q ++ [x])).

(** [get]: [None] when there is no item, which [get(block=False)]
    reports by raising [Empty] at once and [get(block=True, timeout)]
    after the timeout. *)
Definition get {A} (q : t A) : option (A * t A) :=
  match items q with
  | [] => None
  | x :: rest => Some (x, Make (maxsize q) rest)
  end.
End Queue.

(** ** Data model *)

Record Question : Type := mkQuestion {
  q_text : string;
  q_conversation_id : option string;
  q_parent_id : option string;
  question_id : string
}.

Record Answer : Type := mkAnswer {
  text : option string;
  conversation_id : option string;
  parent_id : option string;
  finished : bool
}.

Inductive level : Type := INFO | WARNING | ERROR.

Record Bot : Type := mkBot {
  question_queue : Queue.t Question;
  answer_queues : gmap string (Queue.t Answer);
  answer_queues_lock : Lock.t;
  working : bool;
  num_worker_threads : nat;
  access_token : option string;
  answer_queue_max_size : nat;
  ask_timeout : nat
}.

(** [Bot.__init__] *)
Definition Bot_init (num_worker_threads : nat) : Bot :=
  {| question_queue := Queue.new 0;
     answer_queues := ∅;
     answer_queues_lock := Lock.new;
     working := true;
     num_worker_threads := num_worker_threads;
     access_token := None;
     answer_queue_max_size := 64;
     ask_timeout := 10 |}.

(** The process: the bot, the number of identifiers drawn from
    [uuid.uuid4] so far, and the records handed to [logging] (level and
    format string, oldest first). *)
Record World : Type := mkWorld {
  bot : Bot;
  uuid_draws : nat;
  log : list (level * string)
}.

Definition World_init (num_worker_threads : nat) : World :=
  {| bot := Bot_init num_worker_threads; uuid_draws := 0; log := [] |}.

Definition set_bot (f : Bot -> Bot) (w : World) : World :=
  {| bot := f (bot w); uuid_draws := uuid_draws w; log := log w |}.

Definition with_question_queue (q : Queue.t Question) (b : Bot) : Bot :=
  {| question_queue := q;
     answer_queues := answer_queues b;
     answer_queues_lock := answer_queues_lock b;
     working := working b;
     num_worker_threads := num_worker_threads b;
     access_token := access_token b;
     answer_queue_max_size := answer_queue_max_size b;
     ask_timeout := ask_timeout b |}.

Definition with_answer_queues (m : gmap string (Queue.t Answer)) (b : Bot) : Bot :=
  {| question_queue := question_queue b;
     answer_queues := m;
     answer_queues_lock := answer_queues_lock b;
     working := working b;
     num_worker_threads := num_worker_threads b;
     access_token := access_token b;
     answer_queue_max_size := answer_queue_max_size b;
     ask_timeout := ask_timeout b |}.

Definition with_lock (l : Lock.t) (b : Bot) : Bot :=
  {| question_queue := question_queue b;
     answer_queues := answer_queues b;
     answer_queues_lock := l;
     working := working b;
     num_worker_threads := num_worker_threads b;
     access_token := access_token b;
     answer_queue_max_size := answer_queue_max_size b;
     ask_timeout := ask_timeout b |}.

(** ** The monad of process actions *)

Definition M (A : Type) : Type := World -> outcome A * World.

Definition ret {A} (a : A) : M A := fun w => (Ret a, w).

Definition bind {A B} (m : M A) (k : A -> M B) : M B :=
  fun w =>
    match m w with
    | (Ret a, w') => k a w'
    | (Raise e, w') => (Raise e, w')
    | (Block, w') => (Block, w')
    end.

(** With these instances [x ← m; k] and [m;; k] are [bind]. *)
#[global] Instance M_ret : MRet M := @ret.
#[global] Instance M_bind : MBind M := fun A B k m => bind m k.

Definition raise {A} (e : exn) : M A := fun w => (Raise e, w).
Definition block {A} : M A := fun w => (Block, w).
Definition gets {A} (f : Bot -> A) : M A := fun w => (Ret (f (bot w)), w).
Definition modify (f : Bot -> Bot) : M unit := fun w => (Ret tt, set_bot f w).

(** [try: m except Exception as e: h e] *)
Definition try_except {A} (m : M A) (h : exn -> M A) : M A :=
  fun w =>
    match m w with
    | (Raise e, w') => h e w'
    | r => r
    end.

(** [try: m finally: f] *)
Definition try_finally {A} (m : M A) (f : M unit) : M A :=
  fun w =>
    match m w with
    | (Ret a, w') => (f;; ret a) w'
    | (Raise e, w') => (f;; raise e) w'
    | (Block, w') => (Block, w')
    end.

(** [logging.Logger.info], [.warning] *)
Definition logger (lv : level) (fmt : string) : M unit :=
  fun w => (Ret tt, {| bot := bot w; uuid_draws := uuid_draws w;
                       log := log w ++ [(lv, fmt)] |}).

(** [self.answer_queues_lock.acquire(blocking=True, timeout=1)] *)
Definition lock_acquire : M bool :=
  l ← gets answer_queues_lock;
  modify (with_lock (snd (Lock.acquire l)));;
  ret (fst (Lock.acquire l)).

(** [self.answer_queues_lock.release()] *)
Definition lock_release : M unit :=
  l ← gets answer_queues_lock;
  match Lock.release l with
  | Some l' => modify (with_lock l')
  | None => raise RuntimeError
  end.

(** ** [Bot.queue_answer] *)

(** Lines 120-127: look the buffer up, creating it when absent.  The
    result of [acquire] is dropped, as in the source. *)
Definition queue_answer_lookup (question_id : string) : M unit :=
  lock_acquire;;
  try_finally
    (aq ← gets (fun b => answer_queues b !! question_id);
     match aq with
     | None =>
         n ← gets answer_queue_max_size;
         modify (fun b => with_answer_queues
                            (<[question_id := Queue.new n]> (answer_queues b)) b)
     | Some _ => ret tt
     end)
    lock_release.

(** Line 128: [aq.put(answer)] on the queue found by the lookup.  When the
    queue is still registered the put lands in the registry (or blocks on
    a full queue).  When a poller has removed the registration in between,
    the put lands in a queue nobody can reach any more: the single
    remover, [pop_answer], drains a queue before it unregisters it, so
    that queue has room and the call returns; the answer is lost. *)
Definition queue_answer_put (question_id : string) (answer : Answer) : M unit :=
  aq ← gets (fun b => answer_queues b !! question_id);
  match aq with
  | None => ret tt
  | Some q =>
      match Queue.put answer q with
      | None => block
      | Some q' =>
          modify (fun b => with_answer_queues
                             (<[question_id := q']> (answer_queues b)) b)
      end
  end.

Definition queue_answer (question_id : string) (answer : Answer) : M unit :=
  queue_answer_lookup question_id;;
  queue_answer_put question_id answer.

(** ** [Bot.pop_answer] *)

(** The locals of [pop_answer]: [text], [conversation_id], [parent_id],
    [finished]. *)
Record locals : Type := mkLocals {
  l_text : string;
  l_conversation_id : option string;
  l_parent_id : option string;
  l_finished : bool
}.

Definition locals_init : locals :=
  {| l_text := ""; l_conversation_id := None; l_parent_id := None;
     l_finished := false |}.

(** Lines 132-134: the lookup, again without a look at what [acquire]
    returns. *)
Definition pop_answer_lookup (question_id : string)
  : M (option (Queue.t Answer)) :=
  lock_acquire;;
  aq ← gets (fun b => answer_queues b !! question_id);
  lock_release;;
  ret aq.

(** Lines 137-139 *)
Definition pop_answer_absent : M Answer :=
  logger WARNING "no answer queue found, %s";;
  ret {| text := None; conversation_id := None; parent_id := None;
         finished := false |}.

(** Lines 153-158: what one popped answer does to the locals. *)
Definition pop_answer_body (answer : Answer) (st : locals) : M locals :=
  logger INFO "popping answer: %s, %s, %s, %s";;
  if finished answer then
    ret {| l_text := l_text st;
           l_conversation_id := l_conversation_id st;
           l_parent_id := l_parent_id st;
           l_finished := true |}
  else
    match text answer with
    | None => raise TypeError
    | Some t =>
        ret {| l_text := l_text st +:+ t;
               l_conversation_id := conversation_id answer;
               l_parent_id := parent_id answer;
               l_finished := false |}
    end.

(** Lines 145-158, the [while True] loop run against the items that are in
    the queue: the answers left in the queue, and the locals or the
    exception the loop ends with. *)
Fixpoint drain (pending : list Answer) (st : locals) (w : World)
  : list Answer * (outcome locals * World) :=
  match pending with
  | [] => ([], (Ret st, w))
  | answer :: rest =>
      match pop_answer_body answer st w with
      | (Ret st', w') => drain rest st' w'
      | r => (rest, r)
      end
  end.

Definition pop_answer_loop (question_id : string) (q : Queue.t Answer) : M locals :=
  fun w =>
    let '(rest, (r, w')) := drain (Queue.items q) locals_init w in
    let w'' := set_bot (fun b => with_answer_queues
                 (<[question_id := Queue.Make (Queue.maxsize q) rest]> (answer_queues b)) b) w' in
    (r, w'').

(** Lines 160-164 *)
Definition pop_answer_return (question_id : string) (st : locals) : M Answer :=
  (if l_finished st
   then modify (fun b => with_answer_queues (delete question_id (answer_queues b)) b)
   else ret tt);;
  ret {| text := Some (l_text st);
         conversation_id := l_conversation_id st;
         parent_id := l_parent_id st;
         finished := l_finished st |}.

Definition pop_answer (question_id : string) : M Answer :=
  aq ← pop_answer_lookup question_id;
  match aq with
  | None => pop_answer_absent
  | Some q =>
      st ← pop_answer_loop question_id q;
      pop_answer_return question_id st
  end.

(** ** The engine adapter *)

(** One step of the adapter's stream: the dictionary with the keys
    ["message"], ["conversation_id"] and ["parent_id"]. *)
Record step : Type := mkStep {
  message : string;
  s_conversation_id : option string;
  s_parent_id : option string
}.

(** What iterating [chatbot.ask(...)] does: it yields [steps] in order and
    then either is exhausted ([failure = None]) or raises. *)
Record stream : Type := mkStream {
  steps : list step;
  failure : option string
}.

(** The adapter is external, so it is a parameter.  [Chatbot_new token] is
    the constructor [Chatbot(config={"access_token": token})]: [Some msg]
    when it raises, [None] when it returns the adapter.  The adapter
    applied to the token, the text, the ids and the timeout is what
    iterating its [ask(text, conversation_id, parent_id, timeout)] does. *)
Record Chatbot : Type := mkChatbot {
  Chatbot_new : option string -> option string;
  Chatbot_ask :> option string -> string -> option string -> option string
                 -> nat -> stream
}.

(** ** [Bot.start_answering] *)

(** Line 91: [self.question_queue.get(block=True, timeout=1)] *)
Definition question_queue_get : M Question :=
  q ← gets question_queue;
  match Queue.get q with
  | None => raise Empty
  | Some (question, q') => modify (with_question_queue q');; ret question
  end.

(** Lines 104-110: the body of the [for] loop over the steps the adapter
    yields; the result is the last value bound to [data], if any. *)
Fixpoint for_loop (question_id : string) (datas : list step)
    (text_pos : nat) (data : option step) : M (option step) :=
  match datas with
  | [] => ret data
  | d :: rest =>
      let msg := slice_from text_pos (message d) in
      let text_pos := String.length (message d) in
      queue_answer question_id
        {| text := Some msg; conversation_id := s_conversation_id d;
           parent_id := s_parent_id d; finished := false |};;
      logger INFO "receiving answer, %s, %s, %s, %s";;
      for_loop question_id rest text_pos (Some d)
  end.

(** Lines 104-113: the [try] block. *)
Definition start_answering_try (question_id : string) (s : stream) : M unit :=
  data ← for_loop question_id (steps s) 0 None;
  match failure s with
  | Some msg => raise (AdapterFailure msg)
  | None =>
      match data with
      | None => raise UnboundLocalError
      | Some d =>
          logger INFO "answer complete, %s, %s";;
          queue_answer question_id
            {| text := None; conversation_id := s_conversation_id d;
               parent_id := s_parent_id d; finished := true |}
      end
  end.

(** The whole of [start_answering].  What comes off the queue is a
    [Question], so the test of line 94 never returns early.  The adapter
    is constructed at lines 97-99, before the [try] of line 103: what the
    constructor raises leaves the function, with the question off the
    queue.  The [except] branch builds an answer from [str(ex)] and drops
    it at once (line 115); what it publishes is the answer of line 116. *)
Definition start_answering (chatbot : Chatbot) : M unit :=
  question ← question_queue_get;
  token ← gets access_token;
  match Chatbot_new chatbot token with
  | Some msg => raise (AdapterFailure msg)
  | None =>
      timeout ← gets ask_timeout;
      logger INFO "asking, %s, %s, %s, %s";;
      try_except
        (start_answering_try (question_id question)
           (chatbot token (q_text question) (q_conversation_id question)
              (q_parent_id question) timeout))
        (fun ex =>
           queue_answer (question_id question)
             {| text := None; conversation_id := None; parent_id := None;
                finished := true |})
  end.

(** One turn of the loop of [worker_thread_function]: an empty question
    queue is passed over, anything else that [start_answering] raises is
    logged as an error. *)
Definition worker_turn (chatbot : Chatbot) : M unit :=
  try_except (start_answering chatbot)
    (fun e => match e with
              | Empty => ret tt
              | _ => logger ERROR "%s"
              end).

(** ** [Bot.ask] *)

(** [Question.__init__]; [uuid4 n] is the identifier that the [n]-th call
    of [str(uuid.uuid4())] in the process yields. *)
Definition Question_init (uuid4 : nat -> string) (text : string)
    (conversation_id parent_id : option string) : M Question :=
  fun w =>
    (Ret {| q_text := text; q_conversation_id := conversation_id;
            q_parent_id := parent_id; question_id := uuid4 (uuid_draws w) |},
     {| bot := bot w; uuid_draws := S (uuid_draws w); log := log w |}).

Definition ask (uuid4 : nat -> string) (text : string)
    (conversation_id parent_id : option string) : M Question :=
  question ← Question_init uuid4 text conversation_id parent_id;
  q ← gets question_queue;
  match Queue.put question q with
  | None => block
  | Some q' => modify (with_question_queue q')
  end;;
  ret question.

(** [QuestionApi.post] once the request body is parsed: the response
    carries the [question_id] field of what [ask] returns. *)
Definition QuestionApi_post (uuid4 : nat -> string) (text : string)
    (conversation_id parent_id : option string) : M string :=
  question ← ask uuid4 text conversation_id parent_id;
  ret (question_id question).

(** ** One worker and one poller of a question, step by step

    The calls of [queue_answer] by the worker that owns a question and the
    calls of [pop_answer] by the caller that polls it, cut at the points
    where the other thread can run: between the lookup of [queue_answer]
    and its [put], and before every [get] of the loop of [pop_answer].
    The sections under the registry lock are single steps. *)

(** The threads that take steps: the worker and the poller of the
    question, and the threads that publish and poll for other questions
    (their calls do not stop on the way). *)
Inductive thread : Type :=
| Worker
| Poller
| Publish (other_id : string) (answer : Answer)
| Poll (other_id : string).

Inductive worker : Type :=
| W_next (pending : list Answer)
    (* about to call [queue_answer] on the head of [pending] *)
| W_put (answer : Answer) (rest : list Answer)
    (* inside [queue_answer], before [aq.put(answer)] *)
| W_raised (e : exn)
    (* [queue_answer] raised *).

Inductive poller : Type :=
| P_idle
    (* between two calls of [pop_answer] *)
| P_loop (st : locals)
    (* inside [pop_answer], before [aq.get(block=False)] *).

(** [polled] are the answers that the calls of [pop_answer] have returned
    so far, oldest first. *)
Record system : Type := mkSystem {
  world : World;
  wk : worker;
  pl : poller;
  polled : list Answer
}.

(** The caller polls until an answer says [finished]. *)
Definition seen_finished (s : system) : bool := existsb finished (polled s).

Definition worker_step (question_id : string) (s : system) : system :=
  match wk s with
  | W_next [] => s
  | W_next (answer :: rest) =>
      match queue_answer_lookup question_id (world s) with
      | (Ret _, w') => mkSystem w' (W_put answer rest) (pl s) (polled s)
      | (Raise e, w') => mkSystem w' (W_raised e) (pl s) (polled s)
      | (Block, _) => s
      end
  | W_put answer rest =>
      match queue_answer_put question_id answer (world s) with
      | (Ret _, w') => mkSystem w' (W_next rest) (pl s) (polled s)
      | (Raise e, w') => mkSystem w' (W_raised e) (pl s) (polled s)
      | (Block, _) => s
      end
  | W_raised _ => s
  end.

(** One step of the call of [pop_answer] in progress, or the start of the
    next call.  In [P_loop] the caller holds the queue it looked up; with
    one poller per question nothing unregisters that queue before the call
    ends, so it is read from the registry. *)
Definition poller_step (question_id : string) (s : system) : system :=
  if seen_finished s then s else
  match pl s with
  | P_idle =>
      match pop_answer_lookup question_id (world s) with
      | (Ret None, w') =>
          match pop_answer_absent w' with
          | (Ret a, w'') => mkSystem w'' (wk s) P_idle (polled s ++ [a])
          | (_, w'') => mkSystem w'' (wk s) P_idle (polled s)
          end
      | (Ret (Some _), w') => mkSystem w' (wk s) (P_loop locals_init) (polled s)
      | (_, w') => mkSystem w' (wk s) P_idle (polled s)
      end
  | P_loop st =>
      match answer_queues (bot (world s)) !! question_id with
      | None => s
      | Some q =>
          match Queue.get q with
          | None =>
              match pop_answer_return question_id st (world s) with
              | (Ret a, w') => mkSystem w' (wk s) P_idle (polled s ++ [a])
              | (_, w') => mkSystem w' (wk s) P_idle (polled s)
              end
          | Some (answer, q') =>
              let w := set_bot (fun b => with_answer_queues
                         (<[question_id := q']> (answer_queues b)) b) (world s) in
              match pop_answer_body answer st w with
              | (Ret st', w') => mkSystem w' (wk s) (P_loop st') (polled s)
              | (_, w') => mkSystem w' (wk s) P_idle (polled s)
              end
          end
      end
  end.

Definition sys_step (question_id : string) (s : system) (t : thread) : system :=
  match t with
  | Worker => worker_step question_id s
  | Poller => poller_step question_id s
  | Publish i a =>
      mkSystem (snd (queue_answer i a (world s))) (wk s) (pl s) (polled s)
  | Poll i =>
      mkSystem (snd (pop_answer i (world s))) (wk s) (pl s) (polled s)
  end.

(** The calls for other questions are for other questions. *)
Definition foreign (question_id : string) (t : thread) : Prop :=
  match t with
  | Worker | Poller => True
  | Publish i _ | Poll i => i <> question_id
  end.

(** A schedule says which thread runs next. *)
Definition run (question_id : string) (schedule : list thread) (s : system)
  : system :=
  fold_left (sys_step question_id) schedule s.

Definition system_init (w : World) (fragments : list Answer) : system :=
  mkSystem w (W_next fragments) P_idle [].

(** The worker and the poller take turns, [n] times. *)
Fixpoint round_robin (n : nat) : list thread :=
  match n with
  | 0 => []
  | S n' => Worker :: Poller :: round_robin n'
  end.

(** The same threads when no call is interrupted.  A turn of the worker
    is one call of [queue_answer] on its next fragment; a call that waits
    at a full buffer is taken up again at its [put].  A turn of the caller
    is one call of [pop_answer], as long as no poll has said [finished]. *)
Definition call_step (question_id : string) (s : system) (t : thread) : system :=
  match t with
  | Worker =>
      match wk s with
      | W_next (answer :: rest) =>
          match queue_answer question_id answer (world s) with
          | (Ret _, w') => mkSystem w' (W_next rest) (pl s) (polled s)
          | (Raise e, w') => mkSystem w' (W_raised e) (pl s) (polled s)
          | (Block, w') => mkSystem w' (W_put answer rest) (pl s) (polled s)
          end
      | W_put _ _ => worker_step question_id s
      | _ => s
      end
  | Poller =>
      if seen_finished s then s else
      match pop_answer question_id (world s) with
      | (Ret a, w') => mkSystem w' (wk s) P_idle (polled s ++ [a])
      | (_, w') => mkSystem w' (wk s) P_idle (polled s)
      end
  | Publish _ _ | Poll _ => sys_step question_id s t
  end.

Definition run_calls (question_id : string) (schedule : list thread)
    (s : system) : system :=
  fold_left (call_step question_id) schedule s.

(** What a caller makes of the answers of its polls: the texts, in order;
    an answer without text adds nothing. *)
Definition text_of (a : Answer) : string := default "" (text a).

Definition concat_text (l : list Answer) : string :=
  fold_right (fun a acc => text_of a +:+ acc) "" l.

(** The text of the fragments that are not terminal, in order. *)
Definition fragments_text (l : list Answer) : string :=
  concat_text (filter (fun a => finished a = false) l).

(** ** The worker thread and the switches of the bot *)

Definition with_working (v : bool) (b : Bot) : Bot :=
  {| question_queue := question_queue b;
     answer_queues := answer_queues b;
     answer_queues_lock := answer_queues_lock b;
     working := v;
     num_worker_threads := num_worker_threads b;
     access_token := access_token b;
     answer_queue_max_size := answer_queue_max_size b;
     ask_timeout := ask_timeout b |}.

(** [Bot.is_working] *)
Definition is_working : M bool := gets working.

(** [Bot.stop]: the flag is cleared; the [join(5)] of each worker thread
    waits and changes nothing in the bot. *)
Definition stop : M unit := modify (with_working false).

(** Lines 19-26, the loop of [worker_thread_function].  The loop of the
    source has no bound; [turns] bounds the turns that are looked at, and
    the result says whether the loop has ended within them. *)
Fixpoint worker_loop (chatbot : Chatbot) (turns : nat) : M bool :=
  match turns with
  | 0 => ret false
  | S n =>
      bind is_working (fun go_on : bool =>
        if go_on
        then bind (worker_turn chatbot) (fun _ => worker_loop chatbot n)
        else ret true)
  end.

(** [worker_thread_function], lines 16-27, looked at for [turns] turns of
    its loop. *)
Definition worker_thread_function (chatbot : Chatbot) (turns : nat) : M bool :=
  logger INFO "a worker thread started";;
  bind (worker_loop chatbot turns) (fun ended : bool =>
    if ended
    then bind (logger INFO "a worker thread stopped") (fun _ => ret true)
    else ret false).

(** * The vocabulary of the properties *)

(** ** What the calls compute *)

(** The registry after the lookup of [queue_answer]. *)
Definition ensure (question_id : string) (b : Bot) : gmap string (Queue.t Answer) :=
  match answer_queues b !! question_id with
  | Some _ => answer_queues b
  | None => <[question_id := Queue.new (answer_queue_max_size b)]> (answer_queues b)
  end.

(** A fragment that is not terminal carries text; on any other the
    [text += answer.text] of line 158 raises. *)
Definition has_text (a : Answer) : Prop :=
  finished a = false -> is_Some (text a).

(** What line 154-158 makes of the locals when nothing is raised. *)
Definition absorb (st : locals) (a : Answer) : locals :=
  if finished a then
    {| l_text := l_text st; l_conversation_id := l_conversation_id st;
       l_parent_id := l_parent_id st; l_finished := true |}
  else
    {| l_text := l_text st +:+ text_of a;
       l_conversation_id := conversation_id a;
       l_parent_id := parent_id a; l_finished := false |}.

Definition log_pop (w : World) : World :=
  {| bot := bot w; uuid_draws := uuid_draws w;
     log := log w ++ [(INFO, "popping answer: %s, %s, %s, %s")] |}.

(** The log after the loop has popped [l]. *)
Definition log_pops (l : list Answer) (w : World) : World :=
  fold_left (fun w _ => log_pop w) l w.

(** The world with [q] as the buffer of the question. *)
Definition stored (question_id : string) (q : Queue.t Answer) (w : World)
  : World :=
  set_bot (fun b => with_answer_queues (<[question_id := q]> (answer_queues b)) b)
    w.

(** The flag the loop ends with is the flag of the last fragment popped. *)
Definition last_finished (l : list Answer) : bool :=
  match last l with
  | Some a => finished a
  | None => false
  end.

(** The ids the loop ends with are those of the last fragment popped that
    is not terminal. *)
Definition last_ids (l : list Answer) : option (option string * option string) :=
  (fun a => (conversation_id a, parent_id a))
    <$> last (filter (fun a => finished a = false) l).

(** The answer of a poll that finds the fragments [l] in the buffer. *)
Definition aggregate (l : list Answer) : Answer :=
  {| text := Some (fragments_text l);
     conversation_id := fst (default (None, None) (last_ids l));
     parent_id := snd (default (None, None) (last_ids l));
     finished := last_finished l |}.

(** [n] further polls of the same question, one after the other. *)
Fixpoint poll_again (question_id : string) (n : nat) (w : World)
  : list (outcome Answer) :=
  match n with
  | 0 => []
  | S n' => fst (pop_answer question_id w)
            :: poll_again question_id n' (snd (pop_answer question_id w))
  end.

Definition no_buffer_answer : Answer :=
  {| text := None; conversation_id := None; parent_id := None;
     finished := false |}.

(** ** Inputs to run the code on *)

(** Some fragments to run the code on. *)
Definition fragment (t : string) : Answer :=
  {| text := Some t; conversation_id := Some "c1"; parent_id := Some "p1";
     finished := false |}.

Definition terminal : Answer :=
  {| text := None; conversation_id := Some "c1"; parent_id := Some "p1";
     finished := true |}.

(** The world after [queue_answer] has been called on each of [l] for
    the question ["q"], in a fresh process. *)
Definition published_world (l : list Answer) : World :=
  fold_left (fun w a => snd (queue_answer "q" a w)) l (World_init 4).

(** ** What the worker publishes *)

(** The queue that [queue_answer] puts into: the registered one, or a new
    one. *)
Definition target (question_id : string) (b : Bot) : Queue.t Answer :=
  default (Queue.new (answer_queue_max_size b)) (answer_queues b !! question_id).

(** Two process states with the same bot and the same identifiers drawn;
    they may differ in what has been logged. *)
Definition same_process (w1 w2 : World) : Prop :=
  bot w1 = bot w2 /\ uuid_draws w1 = uuid_draws w2.

Definition same_result {A} (r1 r2 : outcome A * World) : Prop :=
  fst r1 = fst r2 /\ same_process (snd r1) (snd r2).

(** What [queue_answer] is called on, in order. *)
Fixpoint publish_all (question_id : string) (l : list Answer) : M unit :=
  match l with
  | [] => ret tt
  | a :: rest => queue_answer question_id a;; publish_all question_id rest
  end.

(** The fragments of the [for] loop: for each step the part of its
    message behind the cursor [text_pos]. *)
Fixpoint deltas (datas : list step) (text_pos : nat) : list Answer :=
  match datas with
  | [] => []
  | d :: rest =>
      {| text := Some (slice_from text_pos (message d));
         conversation_id := s_conversation_id d;
         parent_id := s_parent_id d; finished := false |}
      :: deltas rest (String.length (message d))
  end.

(** The fragment that ends the stream: with the ids of the last step when
    the adapter is exhausted after at least one step, without ids when the
    [except] branch publishes it. *)
Definition closing (s : stream) : Answer :=
  match failure s, last (steps s) with
  | None, Some d =>
      {| text := None; conversation_id := s_conversation_id d;
         parent_id := s_parent_id d; finished := true |}
  | _, _ =>
      {| text := None; conversation_id := None; parent_id := None;
         finished := true |}
  end.

Definition published (s : stream) : list Answer :=
  deltas (steps s) 0 ++ [closing s].

Definition has_room {A} (q : Queue.t A) (n : nat) : Prop :=
  Queue.maxsize q = 0 \/ length (Queue.items q) + n <= Queue.maxsize q.

(** The world after the calls of [queue_answer] have left [q] as the
    buffer of the question. *)
Definition with_buffer (question_id : string) (q : Queue.t Answer) (w : World)
  : World :=
  set_bot (fun b => with_lock false
             (with_answer_queues (<[question_id := q]> (answer_queues b)) b)) w.

(** ** Cumulative streams *)

(** C2's vocabulary: a stream that reports cumulative text: each step's
    message is the previous one with the step's new part added. *)
Definition part : Type := string * option string * option string.

Fixpoint cumulative (prev : string) (parts : list part) : list step :=
  match parts with
  | [] => []
  | (t, c, p) :: rest =>
      {| message := prev +:+ t; s_conversation_id := c; s_parent_id := p |}
      :: cumulative (prev +:+ t) rest
  end.

(** The non-terminal fragment that carries one new part. *)
Definition delta_fragment (x : part) : Answer :=
  {| text := Some (fst (fst x)); conversation_id := snd (fst x);
     parent_id := snd x; finished := false |}.

Definition joined (parts : list part) : string :=
  fold_right (fun x acc => fst (fst x) +:+ acc) "" parts.

Definition last_part_ids (parts : list part) : option string * option string :=
  default (None, None) ((fun x : part => (snd (fst x), snd x)) <$> last parts).

(** The adapter of the scenario of the specification: the steps ["H"],
    ["He"], ["Hello"], all with conversation ["c1"] and parent ["p1"]. *)
Definition hello_chatbot : Chatbot :=
  mkChatbot (fun _ => None) (fun _ _ _ _ _ =>
    {| steps := [ {| message := "H"; s_conversation_id := Some "c1";
                     s_parent_id := Some "p1" |};
                  {| message := "He"; s_conversation_id := Some "c1";
                     s_parent_id := Some "p1" |};
                  {| message := "Hello"; s_conversation_id := Some "c1";
                     s_parent_id := Some "p1" |} ];
       failure := None |}).

(** A fresh process in which the question ["hello"] has been submitted;
    the identifiers drawn are ["0"], ["1"], ... *)
Definition hello_world : World :=
  snd (ask pretty "hello" None None (World_init 4)).

(** The fragment of the [except] branch of [start_answering]. *)
Definition failed : Answer :=
  {| text := None; conversation_id := None; parent_id := None;
     finished := true |}.


(** An adapter whose stream ends at once, without a step and without a
    failure. *)
Definition silent_chatbot : Chatbot :=
  mkChatbot (fun _ => None)
    (fun _ _ _ _ _ => {| steps := []; failure := None |}).

(** A process in which another thread holds the registry lock and does
    not release it within the timeout. *)
Definition contended_world : World := set_bot (with_lock true) (World_init 4).

(** ** Submissions *)

(** The identifiers that a series of submissions returns. *)
Fixpoint ask_all (uuid4 : nat -> string) (texts : list string) (w : World)
  : list string :=
  match texts with
  | [] => []
  | t :: rest =>
      match QuestionApi_post uuid4 t None None w with
      | (Ret i, w') => i :: ask_all uuid4 rest w'
      | (_, w') => ask_all uuid4 rest w'
      end
  end.

(** ** Reachable states and the capacity of the buffers *)

(** What the threads of the process do to the bot: the submissions, the
    turns of the workers, the two halves of [queue_answer] (a poll may run
    between them) and the polls. *)
Inductive op : Type :=
| Op_ask (text : string) (conversation_id parent_id : option string)
| Op_start_answering (chatbot : Chatbot)
| Op_worker_turn (chatbot : Chatbot)
| Op_queue_answer (question_id : string) (answer : Answer)
| Op_queue_answer_lookup (question_id : string)
| Op_queue_answer_put (question_id : string) (answer : Answer)
| Op_pop_answer (question_id : string).

Definition exec (uuid4 : nat -> string) (o : op) (w : World) : World :=
  match o with
  | Op_ask t c p => snd (ask uuid4 t c p w)
  | Op_start_answering chatbot => snd (start_answering chatbot w)
  | Op_worker_turn chatbot => snd (worker_turn chatbot w)
  | Op_queue_answer i a => snd (queue_answer i a w)
  | Op_queue_answer_lookup i => snd (queue_answer_lookup i w)
  | Op_queue_answer_put i a => snd (queue_answer_put i a w)
  | Op_pop_answer i => snd (pop_answer i w)
  end.

(** The states of the process: those of a new bot, and those that a call
    or a single step of a worker or a poller of some question leads to,
    wherever that thread is in its code. *)
Inductive reachable (uuid4 : nat -> string) : World -> Prop :=
| reachable_init n : reachable uuid4 (World_init n)
| reachable_exec o w : reachable uuid4 w -> reachable uuid4 (exec uuid4 o w)
| reachable_step question_id s t :
    reachable uuid4 (world s) ->
    reachable uuid4 (world (sys_step question_id s t)).

(** Every buffer has the capacity 64 and holds at most 64 fragments. *)
Definition bounded (w : World) : Prop :=
  answer_queue_max_size (bot w) = 64
  /\ forall i q, answer_queues (bot w) !! i = Some q ->
       Queue.maxsize q = 64 /\ length (Queue.items q) <= 64.

Definition preserves {A} (m : M A) : Prop :=
  forall w, bounded w -> bounded (snd (m w)).

(** ** The invariant of the worker and the poller of one question *)

(** The buffer of the question in the registry. *)
Definition reg (question_id : string) (s : system) : option (Queue.t Answer) :=
  answer_queues (bot (world s)) !! question_id.

(** The answer that [pop_answer] returns from the locals [st]. *)
Definition answer_of (st : locals) : Answer :=
  {| text := Some (l_text st); conversation_id := l_conversation_id st;
     parent_id := l_parent_id st; finished := l_finished st |}.

Definition queue_items (question_id : string) (s : system) : list Answer :=
  match reg question_id s with
  | Some q => Queue.items q
  | None => []
  end.

(** The fragments that the worker has not put into the buffer yet. *)
Definition unpublished (k : worker) : list Answer :=
  match k with
  | W_next pending => pending
  | W_put a rest => a :: rest
  | W_raised _ => []
  end.

(** The fragments that no poll has popped yet, in order. *)
Definition ahead (question_id : string) (s : system) : list Answer :=
  queue_items question_id s ++ unpublished (wk s).

Definition in_hand (p : poller) : locals :=
  match p with
  | P_idle => locals_init
  | P_loop st => st
  end.

(** The text that the polls have returned, and the text that the poll in
    progress has collected. *)
Definition received (s : system) : string :=
  concat_text (polled s) +:+ l_text (in_hand (pl s)).

(** In the sequence of fragments of a question the terminal fragment is
    the last one, and the others carry text. *)
Definition terminal_last (fragments : list Answer) : Prop :=
  forall pre x post,
    fragments = pre ++ x :: post ->
    (finished x = true <-> post = []) /\ has_text x.

Record Inv (question_id : string) (fragments : list Answer) (s : system)
  : Prop := mkInv {
  inv_split :
    exists consumed,
      fragments = consumed ++ ahead question_id s
      /\ received s = fragments_text consumed;
  inv_flag :
    l_finished (in_hand (pl s)) || seen_finished s = true
    <-> ahead question_id s = [];
  inv_seen : seen_finished s = true -> pl s = P_idle;
  inv_put : forall a rest, wk s = W_put a rest -> is_Some (reg question_id s);
  inv_loop : forall st, pl s = P_loop st -> is_Some (reg question_id s);
  inv_raised : forall e, wk s <> W_raised e
}.

(** ** The turns that are left *)

Definition worker_steps (k : worker) : nat :=
  match k with
  | W_next pending => 2 * length pending
  | W_put _ rest => 2 * length rest + 1
  | W_raised _ => 0
  end.

Definition phase (p : poller) : nat :=
  match p with
  | P_idle => 2
  | P_loop _ => 1
  end.

(** A bound on the turns that are left. *)
Definition measure (question_id : string) (s : system) : nat :=
  3 * worker_steps (wk s) + length (queue_items question_id s) + phase (pl s).

(** ** Further vocabulary *)

(** A fragment that is not terminal and has no text. *)
Definition textless : Answer :=
  {| text := None; conversation_id := Some "c1"; parent_id := Some "p1";
     finished := false |}.

(** The answer of a poll that finds nothing in a registered buffer. *)
Definition empty_answer : Answer :=
  {| text := Some ""; conversation_id := None; parent_id := None;
     finished := false |}.

(** A terminal fragment without its text and ids; the other fragments as
    they are. *)
Definition strip (a : Answer) : Answer :=
  if finished a then failed else a.

(** What a call of [queue_answer] cannot change: an attribute of the bot
    that does not depend on the registry and its lock. *)
Definition registry_blind {X} (f : Bot -> X) : Prop :=
  forall l m b, f (with_lock l (with_answer_queues m b)) = f b.

(** The questions that a series of submissions makes, the first with the
    [k]-th identifier of the generator. *)
Fixpoint questions_of (uuid4 : nat -> string) (k : nat) (texts : list string)
  : list Question :=
  match texts with
  | [] => []
  | t :: rest =>
      {| q_text := t; q_conversation_id := None; q_parent_id := None;
         question_id := uuid4 k |} :: questions_of uuid4 (S k) rest
  end.

(** The process after a series of submissions. *)
Definition submit_all (uuid4 : nat -> string) (texts : list string) (w : World)
  : World :=
  fold_left (fun w t => snd (ask uuid4 t None None w)) texts w.

(** The questions that [n] calls of [question_queue_get] take off the
    queue, in the order of the calls. *)
Fixpoint take_questions (n : nat) (w : World) : list Question :=
  match n with
  | 0 => []
  | S n' =>
      match question_queue_get w with
      | (Ret q, w') => q :: take_questions n' w'
      | _ => []
      end
  end.

(** An adapter with 64 steps, each adding one character. *)
Definition long_chatbot : Chatbot :=
  mkChatbot (fun _ => None) (fun _ _ _ _ _ =>
    {| steps := cumulative "" (repeat ("x", None, None) 64);
       failure := None |}).

(** The stream that the adapter gives for a question, with the token and
    the timeout of the bot. *)
(** An adapter whose constructor raises. *)
Definition refusing_chatbot : Chatbot :=
  mkChatbot (fun _ => Some "invalid access token")
    (fun _ _ _ _ _ => {| steps := []; failure := None |}).

(** An adapter whose second message is shorter than its first. *)
Definition shrinking_chatbot : Chatbot :=
  mkChatbot (fun _ => None) (fun _ _ _ _ _ =>
    {| steps := [ {| message := "abc"; s_conversation_id := None;
                     s_parent_id := None |};
                  {| message := "ab"; s_conversation_id := Some "c1";
                     s_parent_id := None |} ];
       failure := None |}).

Definition stream_for (chatbot : Chatbot) (b : Bot) (q : Question) : stream :=
  chatbot (access_token b) (q_text q) (q_conversation_id q) (q_parent_id q)
    (ask_timeout b).

(** Two questions in the queue of a new bot. *)
Definition two_questions : World :=
  submit_all pretty ["hello"; "bye"] (World_init 4).

(** * Properties *)

(** ** The registry lock and the lookups *)

(** Unfolds the combinators of [M] and the record updates, then computes
    on the records. *)
Ltac run_m :=
  unfold mbind, M_bind, mret, M_ret, bind, ret, raise, block, gets, modify,
    logger, try_finally, try_except, set_bot, with_lock, with_answer_queues,
    with_question_queue, Lock.acquire, Lock.release in *;
  cbn [bot uuid_draws log answer_queues answer_queues_lock
       answer_queue_max_size question_queue working num_worker_threads
       access_token ask_timeout fst snd world wk pl polled] in *.

(** Whatever the state of the lock, the lookup of [queue_answer] goes
    through the registry and leaves the lock released. *)
Lemma queue_answer_lookup_run question_id w :
  queue_answer_lookup question_id w =
  (Ret tt, set_bot (fun b => with_lock false
                     (with_answer_queues (ensure question_id b) b)) w).
Proof.
  destruct w as [b u l]; destruct b as [qq aqs lk wkg n tok mx tmo].
  unfold queue_answer_lookup, ensure, lock_acquire, lock_release.
  run_m.
  destruct lk; run_m; destruct (aqs !! question_id); run_m; reflexivity.
Qed.

(** The lookup of [pop_answer] reads the registry and leaves the lock
    released, whatever the state of the lock. *)
Lemma pop_answer_lookup_run question_id w :
  pop_answer_lookup question_id w =
  (Ret (answer_queues (bot w) !! question_id), set_bot (with_lock false) w).
Proof.
  destruct w as [b u l]; destruct b as [qq aqs lk wkg n tok mx tmo].
  unfold pop_answer_lookup, lock_acquire, lock_release.
  run_m. destruct lk; run_m; reflexivity.
Qed.

(** ** Strings *)

Lemma append_cons c (s1 s2 : string) :
  String c s1 +:+ s2 = String c (s1 +:+ s2).
Proof. reflexivity. Qed.

Lemma append_nil_l (s : string) : "" +:+ s = s.
Proof. reflexivity. Qed.

Lemma append_nil_r (s : string) : s +:+ "" = s.
Proof.
  induction s as [|c s IH]; [reflexivity|]. now rewrite append_cons, IH.
Qed.

Lemma append_assoc (s1 s2 s3 : string) : (s1 +:+ s2) +:+ s3 = s1 +:+ s2 +:+ s3.
Proof.
  induction s1 as [|c s1 IH]; [reflexivity|]. now rewrite !append_cons, IH.
Qed.

Lemma slice_from_append (s1 s2 : string) :
  slice_from (String.length s1) (s1 +:+ s2) = s2.
Proof.
  induction s1 as [|c s1 IH]; [now destruct s2|].
  rewrite append_cons. exact IH.
Qed.

Lemma concat_text_app l1 l2 :
  concat_text (l1 ++ l2) = concat_text l1 +:+ concat_text l2.
Proof.
  induction l1 as [|a l1 IH]; [reflexivity|].
  simpl app. unfold concat_text in *. simpl fold_right.
  now rewrite IH, append_assoc.
Qed.

Lemma fragments_text_app l1 l2 :
  fragments_text (l1 ++ l2) = fragments_text l1 +:+ fragments_text l2.
Proof. unfold fragments_text. now rewrite filter_app, concat_text_app. Qed.

Lemma fragments_text_cons a l :
  fragments_text (a :: l) =
  if finished a then fragments_text l else text_of a +:+ fragments_text l.
Proof.
  unfold fragments_text. rewrite filter_cons.
  destruct (finished a); simpl; reflexivity.
Qed.

(** ** The loop of [pop_answer] *)

Lemma pop_answer_body_run a st w :
  has_text a -> pop_answer_body a st w = (Ret (absorb st a), log_pop w).
Proof.
  intros Ha. unfold pop_answer_body, absorb, log_pop, has_text, text_of in *.
  run_m. destruct (finished a); [reflexivity|].
  destruct (Ha eq_refl) as [t ->]. reflexivity.
Qed.

(** Decides [Forall has_text] on a list that is written out. *)
Ltac all_have_text :=
  repeat (apply List.Forall_cons;
          [unfold has_text; cbn; intros;
           first [discriminate | eexists; reflexivity] |]);
  apply List.Forall_nil.

(** With text on every fragment that needs it the loop empties the queue. *)
Lemma drain_run l st w :
  Forall has_text l ->
  exists w', drain l st w = ([], (Ret (fold_left absorb l st), w'))
             /\ bot w' = bot w /\ uuid_draws w' = uuid_draws w.
Proof.
  intros Hl. revert st w. induction Hl as [|a l Ha Hl IH]; intros st w; simpl.
  - exists w. auto.
  - rewrite pop_answer_body_run by assumption.
    destruct (IH (absorb st a) (log_pop w)) as (w' & -> & Hb & Hu).
    exists w'. auto.
Qed.

Lemma absorb_text l st :
  l_text (fold_left absorb l st) = l_text st +:+ fragments_text l.
Proof.
  revert st. induction l as [|a l IH]; intros st; simpl.
  - now rewrite append_nil_r.
  - rewrite IH, fragments_text_cons. unfold absorb.
    destruct (finished a); simpl; [reflexivity | apply append_assoc].
Qed.

Lemma absorb_finished l st :
  l_finished (fold_left absorb l st) =
  match last l with Some a => finished a | None => l_finished st end.
Proof.
  revert st. induction l as [|a l IH]; intros st; [reflexivity|].
  simpl fold_left. rewrite IH. destruct l as [|a' l'].
  - simpl. unfold absorb. destruct (finished a); reflexivity.
  - rewrite last_cons_cons. destruct (last (a' :: l')) eqn:Hl; [reflexivity|].
    now apply last_None in Hl.
Qed.

Lemma absorb_ids l st :
  (l_conversation_id (fold_left absorb l st),
   l_parent_id (fold_left absorb l st)) =
  default (l_conversation_id st, l_parent_id st) (last_ids l).
Proof.
  revert st. induction l as [|a l IH]; intros st; [reflexivity|].
  simpl fold_left. rewrite IH. unfold last_ids. rewrite filter_cons.
  unfold absorb. destruct (finished a) eqn:Hf; simpl.
  - reflexivity.
  - rewrite last_cons.
    destruct (last (filter (fun a0 => finished a0 = false) l)); reflexivity.
Qed.

(** ** [pop_answer] as one action *)

Lemma pop_answer_absent_run question_id w :
  answer_queues (bot w) !! question_id = None ->
  pop_answer question_id w =
  (Ret {| text := None; conversation_id := None; parent_id := None;
          finished := false |},
   {| bot := with_lock false (bot w); uuid_draws := uuid_draws w;
      log := log w ++ [(WARNING, "no answer queue found, %s")] |}).
Proof.
  intros Hq. unfold pop_answer, mbind, M_bind, bind.
  rewrite pop_answer_lookup_run, Hq. reflexivity.
Qed.

Lemma pop_answer_present_run question_id w q :
  answer_queues (bot w) !! question_id = Some q ->
  Forall has_text (Queue.items q) ->
  exists w',
    pop_answer question_id w = (Ret (aggregate (Queue.items q)), w')
    /\ answer_queues (bot w') =
       (if last_finished (Queue.items q)
        then delete question_id (answer_queues (bot w))
        else <[question_id := Queue.Make (Queue.maxsize q) []]> (answer_queues (bot w)))
    /\ answer_queue_max_size (bot w') = answer_queue_max_size (bot w)
    /\ question_queue (bot w') = question_queue (bot w)
    /\ uuid_draws w' = uuid_draws w.
Proof.
  intros Hq Hl. unfold pop_answer, mbind, M_bind, bind.
  rewrite pop_answer_lookup_run, Hq. unfold pop_answer_loop.
  destruct (drain_run (Queue.items q) locals_init (set_bot (with_lock false) w) Hl)
    as (w1 & -> & Hb & Hu).
  unfold pop_answer_return, aggregate, last_finished.
  pose proof (absorb_text (Queue.items q) locals_init) as Ht.
  pose proof (absorb_finished (Queue.items q) locals_init) as Hf.
  pose proof (absorb_ids (Queue.items q) locals_init) as Hi.
  destruct (fold_left absorb (Queue.items q) locals_init) as [t c p f].
  cbn [l_text l_conversation_id l_parent_id l_finished locals_init] in *.
  rewrite append_nil_l in Ht. subst t f. rewrite <- Hi. cbn [fst snd].
  destruct w1 as [b1 u1 l1]; cbn [bot uuid_draws] in *; subst b1 u1.
  destruct w as [b u lg]; destruct b as [qq aqs lk wkg n tok mx tmo].
  destruct (match last (Queue.items q) with
            | Some a => finished a | None => false end) eqn:E;
    run_m; eexists; (split; [reflexivity|]); cbn; repeat split.
  - apply delete_insert_eq.
Qed.

(** The loop only touches the log. *)
Lemma drain_bot l st w :
  bot (snd (snd (drain l st w))) = bot w
  /\ uuid_draws (snd (snd (drain l st w))) = uuid_draws w.
Proof.
  revert st w. induction l as [|a l IH]; intros st w; simpl; [auto|].
  unfold pop_answer_body. run_m.
  destruct (finished a).
  - apply (IH _ {| bot := bot w; uuid_draws := uuid_draws w; log := _ |}).
  - destruct (text a); [|auto].
    apply (IH _ {| bot := bot w; uuid_draws := uuid_draws w; log := _ |}).
Qed.

(** A poll that reports [finished] has unregistered the buffer. *)
Lemma pop_answer_finished_unregisters question_id w a w' :
  pop_answer question_id w = (Ret a, w') ->
  finished a = true ->
  answer_queues (bot w') !! question_id = None.
Proof.
  unfold pop_answer, mbind, M_bind, bind.
  rewrite pop_answer_lookup_run.
  destruct (answer_queues (bot w) !! question_id) as [q|] eqn:Hq.
  - unfold pop_answer_loop.
    pose proof (drain_bot (Queue.items q) locals_init (set_bot (with_lock false) w))
      as [Hb _].
    destruct (drain (Queue.items q) locals_init (set_bot (with_lock false) w))
      as [rest [r w1]]. cbn [snd] in Hb.
    destruct r as [st|e|]; [|discriminate..].
    unfold pop_answer_return. run_m.
    destruct (l_finished st) eqn:Hf; intros H Ha; inversion H; subst; clear H.
    + cbn. apply lookup_delete_eq.
    + cbn in Ha. congruence.
  - unfold pop_answer_absent. run_m. intros H Ha. inversion H; subst.
    discriminate.
Qed.

Lemma poll_again_absent question_id n w :
  answer_queues (bot w) !! question_id = None ->
  Forall (fun r => r = Ret no_buffer_answer) (poll_again question_id n w).
Proof.
  revert w. induction n as [|n IH]; intros w Hq; simpl; [constructor|].
  rewrite (pop_answer_absent_run _ _ Hq). constructor; [reflexivity|].
  apply IH. destruct w as [b u l]; destruct b. exact Hq.
Qed.

(** C3 (as amended). A poll pops every fragment that is in the buffer,
    also the ones behind a terminal fragment: the answer carries the text
    of all the non-terminal fragments of the buffer, the ids of the last of
    them, and as [finished] the flag of the last fragment popped; the
    buffer is left empty, or unregistered when that flag is set.  In
    particular the poll reports [finished] when the terminal fragment is
    the last one in the buffer. *)
Theorem pop_answer_drains_whole_buffer question_id w q :
  answer_queues (bot w) !! question_id = Some q ->
  Forall has_text (Queue.items q) ->
  exists w',
    pop_answer question_id w = (Ret (aggregate (Queue.items q)), w')
    /\ answer_queues (bot w') !! question_id =
       (if last_finished (Queue.items q) then None
        else Some (Queue.Make (Queue.maxsize q) []))
    /\ (forall pre t, Queue.items q = pre ++ [t] -> finished t = true ->
        finished (aggregate (Queue.items q)) = true).
Proof.
  intros Hq Hl.
  destruct (pop_answer_present_run question_id w q Hq Hl) as (w' & Hrun & Hreg & _).
  exists w'. split; [exact Hrun|]. split.
  - rewrite Hreg. destruct (last_finished (Queue.items q)).
    + apply lookup_delete_eq.
    + apply lookup_insert_eq.
  - intros pre t -> Ht. cbn. unfold last_finished. now rewrite last_snoc.
Qed.

Lemma pop_answer_drains_whole_buffer_witness :
  exists w',
    pop_answer "q" (published_world [fragment "a"; terminal]) =
      (Ret (aggregate [fragment "a"; terminal]), w')
    /\ answer_queues (bot w') !! "q" = None.
Proof.
  assert (Hq : answer_queues (bot (published_world [fragment "a"; terminal]))
               !! "q" = Some (Queue.Make 64 [fragment "a"; terminal]))
    by (vm_compute; reflexivity).
  assert (Hl : Forall has_text [fragment "a"; terminal])
    by all_have_text.
  destruct (pop_answer_drains_whole_buffer "q" _ _ Hq Hl) as (w' & H1 & H2 & _).
  exists w'. split; [exact H1 | exact H2].
Defined.

(** C3, refuted as stated: with a non-terminal fragment behind a terminal
    one in the buffer, the poll pops both, and it is the fragment behind
    the terminal one that decides the answer: [finished] is false and the
    text is that fragment's. *)
Lemma pop_answer_goes_past_terminal :
  exists w',
    pop_answer "q" (published_world [terminal; fragment "x"]) =
      (Ret {| text := Some "x"; conversation_id := Some "c1";
              parent_id := Some "p1"; finished := false |}, w')
    /\ answer_queues (bot w') !! "q" = Some (Queue.Make 64 []).
Proof. eexists. split; vm_compute; reflexivity. Qed.

(** C4 (as amended). A poll of a question id that has no buffer in the
    registry returns an answer without text (the text is absent, it is not
    the empty string), without conversation id and parent id, and with
    [finished] false; it raises nothing, logs one record, a warning, and
    leaves the registry as it is. *)
Theorem pop_answer_unknown_id question_id w :
  answer_queues (bot w) !! question_id = None ->
  exists w',
    pop_answer question_id w =
      (Ret {| text := None; conversation_id := None; parent_id := None;
              finished := false |}, w')
    /\ log w' = log w ++ [(WARNING, "no answer queue found, %s")]
    /\ answer_queues (bot w') = answer_queues (bot w).
Proof.
  intros Hq. eexists. split; [apply pop_answer_absent_run, Hq|].
  split; [reflexivity|]. destruct w as [b u l]; destruct b; reflexivity.
Qed.

Lemma pop_answer_unknown_id_witness :
  exists w',
    pop_answer "never-submitted" (World_init 4) =
      (Ret {| text := None; conversation_id := None; parent_id := None;
              finished := false |}, w')
    /\ log w' = [(WARNING, "no answer queue found, %s")]
    /\ answer_queues (bot w') = ∅.
Proof.
  apply (pop_answer_unknown_id "never-submitted" (World_init 4)).
  reflexivity.
Defined.

(** C4, refuted as stated: the answer to a poll of an id that was never
    submitted does not carry the empty string as its text. *)
Lemma pop_answer_unknown_id_text_absent :
  exists a w',
    pop_answer "never-submitted" (World_init 4) = (Ret a, w')
    /\ text a <> Some "".
Proof. eexists _, _. split; [vm_compute; reflexivity | discriminate]. Qed.

(** C5 (as amended). Once a poll has returned [finished], the buffer of
    the question is no longer in the registry, and every later poll of the
    same id returns the answer of a question without buffer: [finished]
    false, no text (absent, not the empty string) and no ids. *)
Theorem pop_answer_after_finished question_id w a w' :
  pop_answer question_id w = (Ret a, w') ->
  finished a = true ->
  answer_queues (bot w') !! question_id = None
  /\ forall n, Forall (fun r => r = Ret no_buffer_answer)
                 (poll_again question_id n w').
Proof.
  intros Hrun Ha.
  pose proof (pop_answer_finished_unregisters _ _ _ _ Hrun Ha) as Hq.
  split; [exact Hq|]. intros n. now apply poll_again_absent.
Qed.

Lemma pop_answer_after_finished_witness :
  answer_queues
    (bot (snd (pop_answer "q" (published_world [fragment "a"; terminal]))))
    !! "q" = None
  /\ forall n, Forall (fun r => r = Ret no_buffer_answer)
       (poll_again "q" n
          (snd (pop_answer "q" (published_world [fragment "a"; terminal])))).
Proof.
  apply (pop_answer_after_finished "q"
           (published_world [fragment "a"; terminal])
           (aggregate [fragment "a"; terminal])).
  - vm_compute. reflexivity.
  - reflexivity.
Defined.

(** C5, refuted as stated: the poll that follows the one that returned
    [finished] does not carry the empty string as its text. *)
Lemma poll_after_finished_text_absent :
  exists a1 w1 a2 w2,
    pop_answer "q" (published_world [fragment "a"; terminal]) = (Ret a1, w1)
    /\ finished a1 = true
    /\ pop_answer "q" w1 = (Ret a2, w2)
    /\ text a2 <> Some "".
Proof.
  eexists _, _, _, _.
  split; [vm_compute; reflexivity|].
  split; [reflexivity|].
  split; [vm_compute; reflexivity | discriminate].
Qed.

(** ** [queue_answer] as one action *)

Lemma ensure_lookup question_id b :
  ensure question_id b !! question_id = Some (target question_id b).
Proof.
  unfold ensure, target.
  destruct (answer_queues b !! question_id) eqn:E; simpl; [exact E|].
  apply lookup_insert_eq.
Qed.

Lemma insert_ensure question_id b q :
  <[question_id := q]> (ensure question_id b) =
  <[question_id := q]> (answer_queues b).
Proof.
  unfold ensure. destruct (answer_queues b !! question_id); [reflexivity|].
  apply insert_insert_eq.
Qed.

(** [queue_answer] never raises: it waits when the queue is full and
    otherwise appends to it, whatever the state of the lock. *)
Lemma queue_answer_run question_id a w :
  queue_answer question_id a w =
  match Queue.put a (target question_id (bot w)) with
  | None =>
      (Block, set_bot (fun b => with_lock false
                         (with_answer_queues (ensure question_id b) b)) w)
  | Some q' =>
      (Ret tt, set_bot (fun b => with_lock false
                 (with_answer_queues (<[question_id := q']> (answer_queues b)) b)) w)
  end.
Proof.
  unfold queue_answer, mbind, M_bind, bind.
  rewrite queue_answer_lookup_run. unfold queue_answer_put, mbind, M_bind, bind, gets.
  destruct w as [b u l]. cbn [set_bot bot].
  change (answer_queues (with_lock false
            (with_answer_queues (ensure question_id b) b)))
    with (ensure question_id b).
  rewrite ensure_lookup.
  destruct (Queue.put a (target question_id b)) as [q'|]; [|reflexivity].
  unfold modify, set_bot. cbn [bot uuid_draws log].
  destruct b as [qq aqs lk wkg n tok mx tmo].
  unfold with_lock, with_answer_queues.
  cbn [answer_queues question_queue answer_queues_lock working
       num_worker_threads access_token answer_queue_max_size ask_timeout].
  rewrite insert_ensure. reflexivity.
Qed.

Lemma queue_answer_same question_id a w1 w2 :
  same_process w1 w2 ->
  same_result (queue_answer question_id a w1) (queue_answer question_id a w2).
Proof.
  intros [Hb Hu]. rewrite !queue_answer_run.
  destruct w1 as [b1 u1 l1], w2 as [b2 u2 l2]. cbn in Hb, Hu. subst b2 u2.
  cbn [bot].
  destruct (Queue.put a (target question_id b1)); split; try split; reflexivity.
Qed.

Lemma publish_all_app question_id l1 l2 w :
  publish_all question_id (l1 ++ l2) w =
  (publish_all question_id l1;; publish_all question_id l2) w.
Proof.
  revert w. induction l1 as [|a l1 IH]; intros w; [reflexivity|].
  simpl. unfold mbind, M_bind, bind in *.
  destruct (queue_answer question_id a w) as [[| |] w']; [apply IH | reflexivity..].
Qed.

(** ** What the worker publishes *)

Lemma for_loop_publishes question_id datas text_pos data w1 w2 :
  same_process w1 w2 ->
  match for_loop question_id datas text_pos data w1,
        publish_all question_id (deltas datas text_pos) w2 with
  | (Ret d, w1'), (Ret _, w2') =>
      d = from_option Some data (last datas) /\ same_process w1' w2'
  | (Block, w1'), (Block, w2') => same_process w1' w2'
  | _, _ => False
  end.
Proof.
  revert text_pos data w1 w2.
  induction datas as [|d datas IH]; intros text_pos data w1 w2 Hw.
  - simpl. split; [reflexivity | exact Hw].
  - simpl. unfold mbind, M_bind, bind.
    match goal with
    | |- context [queue_answer ?q ?a w1] =>
        pose proof (queue_answer_same q a w1 w2 Hw) as [Hr Hs];
        pose proof (queue_answer_run q a w1) as Hrun;
        destruct (queue_answer q a w1) as [r1 w1'];
        destruct (queue_answer q a w2) as [r2 w2']
    end.
    cbn [fst snd] in Hr, Hs. subst r2.
    destruct r1 as [[]|e|].
    + specialize (IH (String.length (message d)) (Some d)
                     (snd (logger INFO "receiving answer, %s, %s, %s, %s" w1'))
                     w2').
      unfold logger in *. cbn [snd] in IH.
      assert (Hs' : same_process
                {| bot := bot w1'; uuid_draws := uuid_draws w1';
                   log := log w1' ++ [(INFO, "receiving answer, %s, %s, %s, %s")] |}
                w2') by exact Hs.
      specialize (IH Hs').
      destruct (publish_all _ _ w2') as [[[]| |] w2''];
        destruct (for_loop _ datas _ _ _) as [[dd| |] w1'']; try contradiction.
      * destruct IH as [-> Hs'']. split; [|exact Hs''].
        rewrite last_cons. destruct (last datas); reflexivity.
      * exact IH.
    + destruct (Queue.put _ _) in Hrun; discriminate.
    + exact Hs.
Qed.

(** The constructor of the adapter raises: the exception leaves
    [start_answering], the question is off the queue, and nothing else has
    changed. *)
Lemma start_answering_refused (chatbot : Chatbot) w question q' msg :
  Queue.get (question_queue (bot w)) = Some (question, q') ->
  Chatbot_new chatbot (access_token (bot w)) = Some msg ->
  start_answering chatbot w =
  (Raise (AdapterFailure msg), set_bot (with_question_queue q') w).
Proof.
  intros Hget Hnew. destruct w as [b u l]; destruct b as [qq aqs lk wkg n tok mx tmo].
  cbn [bot question_queue access_token] in Hget, Hnew.
  unfold start_answering, question_queue_get, mbind, M_bind, bind, gets, modify,
    logger, set_bot, mret, M_ret, ret, raise.
  cbn [bot question_queue]. rewrite Hget.
  cbn [fst snd bot with_question_queue access_token]. rewrite Hnew. reflexivity.
Qed.

(** The part of [start_answering] before the [try], when the constructor
    returns. *)
Lemma start_answering_dequeue (chatbot : Chatbot) w question q' :
  Queue.get (question_queue (bot w)) = Some (question, q') ->
  Chatbot_new chatbot (access_token (bot w)) = None ->
  start_answering chatbot w =
  try_except
    (start_answering_try (question_id question)
       (chatbot (access_token (bot w)) (q_text question)
          (q_conversation_id question) (q_parent_id question)
          (ask_timeout (bot w))))
    (fun _ => queue_answer (question_id question)
                {| text := None; conversation_id := None; parent_id := None;
                   finished := true |})
    {| bot := with_question_queue q' (bot w); uuid_draws := uuid_draws w;
       log := log w ++ [(INFO, "asking, %s, %s, %s, %s")] |}.
Proof.
  intros Hget Hnew. destruct w as [b u l]; destruct b as [qq aqs lk wkg n tok mx tmo].
  cbn [bot question_queue access_token] in Hget, Hnew.
  unfold start_answering, question_queue_get, mbind, M_bind, bind, gets, modify,
    logger, set_bot, mret, M_ret, ret.
  cbn [bot question_queue]. rewrite Hget.
  cbn [fst snd bot with_question_queue access_token]. rewrite Hnew. reflexivity.
Qed.

(** [start_answering] takes the question off the queue and then calls
    [queue_answer] on [published s], in order, for the stream [s] of the
    adapter; it waits where one of these calls waits. *)
Lemma start_answering_publishes (chatbot : Chatbot) w question q' :
  Queue.get (question_queue (bot w)) = Some (question, q') ->
  Chatbot_new chatbot (access_token (bot w)) = None ->
  same_result
    (start_answering chatbot w)
    (publish_all (question_id question)
       (published (chatbot (access_token (bot w)) (q_text question)
                     (q_conversation_id question) (q_parent_id question)
                     (ask_timeout (bot w))))
       (set_bot (with_question_queue q') w)).
Proof.
  intros Hget Hnew. rewrite (start_answering_dequeue _ _ _ _ Hget Hnew).
  set (s := Chatbot_ask chatbot _ _ _ _ _).
  set (w0 := set_bot (with_question_queue q') w).
  set (w1 := {| bot := with_question_queue q' (bot w) |}).
  assert (Hw : same_process w1 w0) by (split; reflexivity).
  clearbody w0 w1 s.
  unfold published. rewrite publish_all_app.
  unfold try_except, start_answering_try, mbind, M_bind, bind.
  pose proof (for_loop_publishes (question_id question) (steps s) 0 None w1 w0 Hw)
    as Hloop.
  destruct (publish_all _ (deltas (steps s) 0) w0) as [[[]| |] w0'];
    destruct (for_loop _ (steps s) 0 None w1) as [[dd| |] w1'];
    try contradiction.
  - destruct Hloop as [-> Hs]. unfold closing.
    simpl publish_all. unfold mbind, M_bind, bind.
    destruct (failure s) as [msg|].
    + unfold raise.
      pose proof (queue_answer_same (question_id question)
                    {| text := None; conversation_id := None;
                       parent_id := None; finished := true |} w1' w0' Hs) as [Hr Hs'].
      destruct (queue_answer _ _ w1') as [r1 w1''],
               (queue_answer _ _ w0') as [r0 w0''].
      cbn [fst snd] in *. subst r0.
      destruct r1 as [[]| |]; split; try reflexivity; exact Hs'.
    + destruct (last (steps s)) as [d|]; cbn [from_option].
      * unfold logger.
        match goal with
        | |- context [queue_answer ?q ?a w0'] =>
            pose proof (queue_answer_run q a
              {| bot := bot w1'; uuid_draws := uuid_draws w1';
                 log := log w1' ++ [(INFO, "answer complete, %s, %s")] |}) as Hrun;
            pose proof (queue_answer_same q a
              {| bot := bot w1'; uuid_draws := uuid_draws w1';
                 log := log w1' ++ [(INFO, "answer complete, %s, %s")] |}
              w0' Hs) as [Hr Hs']
        end.
        destruct (queue_answer _ _ {| bot := bot w1' |}) as [r1 w1''],
                 (queue_answer _ _ w0') as [r0 w0''].
        cbn [fst snd] in *. subst r0.
        destruct r1 as [[]|e|].
        -- split; [reflexivity | exact Hs'].
        -- destruct (Queue.put _ _) in Hrun; discriminate.
        -- split; [reflexivity | exact Hs'].
      * unfold raise.
        pose proof (queue_answer_same (question_id question)
                      {| text := None; conversation_id := None;
                         parent_id := None; finished := true |} w1' w0' Hs) as [Hr Hs'].
        destruct (queue_answer _ _ w1') as [r1 w1''],
                 (queue_answer _ _ w0') as [r0 w0''].
        cbn [fst snd] in *. subst r0.
        destruct r1 as [[]| |]; split; try reflexivity; exact Hs'.
  - split; [reflexivity | exact Hloop].
Qed.

(** ** Publishing into a buffer that has room *)

Lemma put_room {A} (x : A) (q : Queue.t A) :
  has_room q 1 ->
  Queue.put x q = Some (Queue.Make (Queue.maxsize q) (Queue.items q ++ [x])).
Proof.
  unfold has_room, Queue.put, Queue.full, Queue.qsize. intros H.
  destruct (0 <? Queue.maxsize q) eqn:E1; [|reflexivity].
  destruct (Queue.maxsize q <=? length (Queue.items q)) eqn:E2; [|reflexivity].
  apply Nat.ltb_lt in E1. apply Nat.leb_le in E2. lia.
Qed.

Lemma put_full {A} (x : A) (q : Queue.t A) :
  0 < Queue.maxsize q -> Queue.maxsize q <= length (Queue.items q) ->
  Queue.put x q = None.
Proof.
  unfold Queue.put, Queue.full, Queue.qsize. intros H1 H2.
  apply Nat.ltb_lt in H1. apply Nat.leb_le in H2. now rewrite H1, H2.
Qed.

Lemma with_buffer_lookup question_id q w :
  answer_queues (bot (with_buffer question_id q w)) !! question_id = Some q.
Proof. destruct w as [[] ? ?]. cbn. apply lookup_insert_eq. Qed.

Lemma target_with_buffer question_id q w :
  target question_id (bot (with_buffer question_id q w)) = q.
Proof. unfold target. now rewrite with_buffer_lookup. Qed.

Lemma with_buffer_twice question_id q1 q2 w :
  with_buffer question_id q2 (with_buffer question_id q1 w) =
  with_buffer question_id q2 w.
Proof.
  destruct w as [[] ? ?]. unfold with_buffer, set_bot, with_lock, with_answer_queues.
  cbn. now rewrite insert_insert_eq.
Qed.

Lemma publish_all_room question_id a l w :
  has_room (target question_id (bot w)) (S (length l)) ->
  publish_all question_id (a :: l) w =
  (Ret tt,
   with_buffer question_id
     (Queue.Make (Queue.maxsize (target question_id (bot w)))
        (Queue.items (target question_id (bot w)) ++ a :: l)) w).
Proof.
  revert a w. induction l as [|a' l IH]; intros a w Hroom.
  - simpl. unfold mbind, M_bind, bind. rewrite queue_answer_run.
    rewrite put_room by exact Hroom. reflexivity.
  - change (publish_all question_id (a :: a' :: l) w)
      with ((queue_answer question_id a;; publish_all question_id (a' :: l)) w).
    unfold mbind, M_bind, bind. rewrite queue_answer_run.
    rewrite put_room by (unfold has_room in *; simpl in *; lia).
    fold (with_buffer question_id
            (Queue.Make (Queue.maxsize (target question_id (bot w)))
               (Queue.items (target question_id (bot w)) ++ [a])) w).
    rewrite IH.
    + rewrite !target_with_buffer. cbn [Queue.maxsize Queue.items].
      rewrite with_buffer_twice, <- app_assoc. reflexivity.
    + rewrite target_with_buffer.
      unfold has_room in *. cbn [Queue.maxsize Queue.items] in *.
      rewrite length_app. simpl in *. lia.
Qed.

Lemma length_deltas datas text_pos : length (deltas datas text_pos) = length datas.
Proof.
  revert text_pos. induction datas as [|d datas IH]; intros text_pos; simpl;
    [reflexivity | now rewrite IH].
Qed.

Lemma deltas_nonterminal datas text_pos :
  Forall (fun a => finished a = false /\ is_Some (text a)) (deltas datas text_pos).
Proof.
  revert text_pos. induction datas as [|d datas IH]; intros text_pos; simpl.
  - apply List.Forall_nil.
  - apply List.Forall_cons; [|apply IH]. split; [reflexivity|]. now eexists.
Qed.

Lemma closing_finished s : finished (closing s) = true.
Proof.
  unfold closing. destruct (failure s); [reflexivity|].
  destruct (last (steps s)); reflexivity.
Qed.

(** A worker that takes a question without buffer off the queue, and whose
    fragments all fit into a new buffer, returns with the buffer holding
    [published s]. *)
Lemma start_answering_run (chatbot : Chatbot) w question q' :
  Queue.get (question_queue (bot w)) = Some (question, q') ->
  Chatbot_new chatbot (access_token (bot w)) = None ->
  answer_queues (bot w) !! question_id question = None ->
  let s := chatbot (access_token (bot w)) (q_text question)
             (q_conversation_id question) (q_parent_id question)
             (ask_timeout (bot w)) in
  answer_queue_max_size (bot w) = 0
  \/ length (steps s) < answer_queue_max_size (bot w) ->
  exists w1,
    start_answering chatbot w = (Ret tt, w1)
    /\ answer_queues (bot w1) !! question_id question =
       Some (Queue.Make (answer_queue_max_size (bot w)) (published s)).
Proof.
  intros Hget Hnew Hq s Hroom.
  pose proof (start_answering_publishes chatbot w question q' Hget Hnew)
    as [Hr [Hb _]].
  fold s in Hr, Hb.
  set (w0 := set_bot (with_question_queue q') w) in *.
  assert (Ht : target (question_id question) (bot w0)
               = Queue.new (answer_queue_max_size (bot w))).
  { unfold target, w0. destruct w as [[] ? ?]. cbn in *. now rewrite Hq. }
  assert (Hpub : exists a l, published s = a :: l).
  { unfold published. destruct (deltas (steps s) 0); simpl; eauto. }
  destruct Hpub as (a & l & Hpub).
  assert (Hlen : S (length l) = S (length (steps s))).
  { change (S (length l)) with (length (a :: l)). rewrite <- Hpub.
    unfold published. rewrite length_app, length_deltas. simpl. lia. }
  rewrite Hpub in Hr, Hb. rewrite publish_all_room in Hr, Hb.
  2,3: rewrite Ht; unfold has_room; cbn [Queue.new Queue.maxsize Queue.items length];
       lia.
  cbn [fst snd] in Hr, Hb. rewrite Ht in Hb.
  cbn [Queue.new Queue.maxsize Queue.items app] in Hb.
  exists (snd (start_answering chatbot w)). split.
  - destruct (start_answering chatbot w) as [r w1]. cbn [fst snd] in *. now subst r.
  - rewrite Hb, with_buffer_lookup, Hpub. reflexivity.
Qed.

Lemma deltas_cumulative prev parts :
  deltas (cumulative prev parts) (String.length prev) = map delta_fragment parts.
Proof.
  revert prev. induction parts as [|[[t c] p] parts IH]; intros prev; [reflexivity|].
  simpl. rewrite slice_from_append, IH. reflexivity.
Qed.

Lemma fragments_text_deltas parts c :
  finished c = true ->
  fragments_text (map delta_fragment parts ++ [c]) = joined parts.
Proof.
  intros Hc. induction parts as [|x parts IH].
  - simpl. rewrite fragments_text_cons, Hc. reflexivity.
  - simpl. rewrite fragments_text_cons. cbn [finished delta_fragment].
    now rewrite IH.
Qed.

Lemma filter_deltas parts :
  filter (fun a => finished a = false) (map delta_fragment parts)
  = map delta_fragment parts.
Proof.
  induction parts as [|x parts IH]; [reflexivity|].
  cbn [map]. rewrite filter_cons, IH. reflexivity.
Qed.

Lemma last_ids_deltas parts c :
  finished c = true ->
  last_ids (map delta_fragment parts ++ [c]) =
  (fun x : part => (snd (fst x), snd x)) <$> last parts.
Proof.
  intros Hc. unfold last_ids. rewrite filter_app, filter_deltas.
  rewrite (filter_cons _ c), Hc. cbn [filter]. rewrite filter_nil, app_nil_r.
  change (map delta_fragment parts) with (delta_fragment <$> parts).
  rewrite fmap_last. destruct (last parts); reflexivity.
Qed.

(** A poll that finds everything the worker has published for a stream. *)
Lemma poll_published question_id w (q : Queue.t Answer) l c :
  answer_queues (bot w) !! question_id = Some q ->
  Queue.items q = l ++ [c] ->
  Forall (fun a => finished a = false /\ is_Some (text a)) l ->
  finished c = true ->
  exists w',
    pop_answer question_id w =
    (Ret {| text := Some (fragments_text l);
            conversation_id := fst (default (None, None) (last_ids l));
            parent_id := snd (default (None, None) (last_ids l));
            finished := true |}, w')
    /\ answer_queues (bot w') !! question_id = None.
Proof.
  intros Hq Hitems Hl Hc.
  assert (Ht : Forall has_text (Queue.items q)).
  { rewrite Hitems. apply Forall_app. split.
    - eapply Forall_impl; [exact Hl|]. intros a [_ H] _. exact H.
    - apply List.Forall_cons; [|apply List.Forall_nil]. intros H. congruence. }
  destruct (pop_answer_present_run question_id w q Hq Ht) as (w' & Hrun & Hreg & _).
  exists w'. rewrite Hrun. unfold aggregate, last_finished.
  rewrite Hitems, last_snoc, Hc, fragments_text_app, fragments_text_cons, Hc.
  unfold last_ids. rewrite filter_app, (filter_cons _ c), Hc.
  cbn [filter]. rewrite filter_nil, app_nil_r.
  change (fragments_text []) with "". rewrite append_nil_r.
  split; [reflexivity|].
  rewrite Hreg. unfold last_finished. rewrite Hitems, last_snoc, Hc.
  apply lookup_delete_eq.
Qed.

(** C2. The constructor of the adapter has returned.  For a stream that
    reports cumulative text, the worker calls
    [queue_answer] on one non-terminal fragment per step, carrying the part
    of the message that the step added, and then on the closing fragment.
    When the question has no buffer yet and the fragments fit into one,
    the worker returns with the buffer holding them, and one poll then
    returns the whole text, the ids of the last step and [finished]. *)
Theorem worker_publishes_deltas (chatbot : Chatbot) w question q' parts :
  Queue.get (question_queue (bot w)) = Some (question, q') ->
  Chatbot_new chatbot (access_token (bot w)) = None ->
  let s := chatbot (access_token (bot w)) (q_text question)
             (q_conversation_id question) (q_parent_id question)
             (ask_timeout (bot w)) in
  steps s = cumulative "" parts ->
  published s = map delta_fragment parts ++ [closing s]
  /\ same_result
       (start_answering chatbot w)
       (publish_all (question_id question)
          (map delta_fragment parts ++ [closing s])
          (set_bot (with_question_queue q') w))
  /\ (answer_queues (bot w) !! question_id question = None ->
      answer_queue_max_size (bot w) = 0
      \/ length parts < answer_queue_max_size (bot w) ->
      exists w1 w2,
        start_answering chatbot w = (Ret tt, w1)
        /\ answer_queues (bot w1) !! question_id question =
           Some (Queue.Make (answer_queue_max_size (bot w))
                   (map delta_fragment parts ++ [closing s]))
        /\ pop_answer (question_id question) w1 =
           (Ret {| text := Some (joined parts);
                   conversation_id := fst (last_part_ids parts);
                   parent_id := snd (last_part_ids parts);
                   finished := true |}, w2)).
Proof.
  intros Hget Hnew s Hsteps.
  assert (Hpub : published s = map delta_fragment parts ++ [closing s]).
  { unfold published. rewrite Hsteps.
    change 0 with (String.length ""). now rewrite deltas_cumulative. }
  split; [exact Hpub|]. split.
  - rewrite <- Hpub. apply start_answering_publishes; [exact Hget | exact Hnew].
  - intros Hq Hroom.
    assert (Hlen : length (steps s) = length parts).
    { rewrite <- (length_deltas (steps s) 0). unfold published in Hpub.
      apply app_inj_tail in Hpub as [-> _]. apply length_map. }
    destruct (start_answering_run chatbot w question q' Hget Hnew Hq)
      as (w1 & Hrun & Hreg).
    { fold s. rewrite Hlen. exact Hroom. }
    fold s in Hreg. rewrite Hpub in Hreg.
    destruct (poll_published (question_id question) w1 _
                (map delta_fragment parts) (closing s) Hreg eq_refl)
      as (w2 & Hpoll & _).
    { clear. induction parts as [|x parts IH]; [apply List.Forall_nil|].
      apply List.Forall_cons; [|exact IH]. split; [reflexivity | now eexists]. }
    { apply closing_finished. }
    exists w1, w2. split; [exact Hrun|]. split; [exact Hreg|].
    rewrite Hpoll. unfold last_part_ids.
    pose proof (fragments_text_deltas parts (closing s) (closing_finished s)) as Ht.
    rewrite fragments_text_app, fragments_text_cons, closing_finished in Ht.
    change (fragments_text []) with "" in Ht. rewrite append_nil_r in Ht.
    rewrite Ht.
    pose proof (last_ids_deltas parts (closing s) (closing_finished s)) as Hi.
    unfold last_ids in Hi. rewrite filter_app, (filter_cons _ (closing s)),
      closing_finished in Hi. cbn [filter] in Hi.
    rewrite filter_nil, app_nil_r in Hi. fold (last_ids (map delta_fragment parts)) in Hi.
    rewrite Hi. reflexivity.
Qed.

(** The scenario of the specification: the deltas are ["H"], ["e"] and
    ["llo"], and one poll after the terminal fragment returns ["Hello"]
    with conversation ["c1"], parent ["p1"] and [finished]. *)
Lemma worker_publishes_deltas_witness :
  exists w1 w2,
    start_answering hello_chatbot hello_world = (Ret tt, w1)
    /\ answer_queues (bot w1) !! "0" =
       Some (Queue.Make 64 [fragment "H"; fragment "e"; fragment "llo"; terminal])
    /\ pop_answer "0" w1 =
       (Ret {| text := Some "Hello"; conversation_id := Some "c1";
               parent_id := Some "p1"; finished := true |}, w2).
Proof.
  destruct (worker_publishes_deltas hello_chatbot hello_world
              {| q_text := "hello"; q_conversation_id := None;
                 q_parent_id := None; question_id := "0" |}
              (Queue.Make 0 [])
              [("H", Some "c1", Some "p1"); ("e", Some "c1", Some "p1");
               ("llo", Some "c1", Some "p1")] eq_refl eq_refl eq_refl)
    as (_ & _ & H).
  apply H; [reflexivity | right; vm_compute; lia].
Defined.



(** C10. The constructor of the adapter has returned.  When the stream of
    the adapter is exhausted without a single step, the [try] block raises on the unbound [data] before it publishes
    anything, so that all the worker publishes is the fragment of the
    [except] branch: it does exactly what it does for an adapter that fails
    before its first step, and the poll returns [finished] with the empty
    text and no ids. *)
Theorem empty_stream_takes_failure_path (chatbot : Chatbot) w question q' :
  Queue.get (question_queue (bot w)) = Some (question, q') ->
  Chatbot_new chatbot (access_token (bot w)) = None ->
  let s := chatbot (access_token (bot w)) (q_text question)
             (q_conversation_id question) (q_parent_id question)
             (ask_timeout (bot w)) in
  s = {| steps := []; failure := None |} ->
  (forall w', start_answering_try (question_id question) s w'
              = (Raise UnboundLocalError, w'))
  /\ published s = [failed]
  /\ same_result
       (start_answering chatbot w)
       (publish_all (question_id question) [failed]
          (set_bot (with_question_queue q') w))
  /\ (forall (chatbot' : Chatbot) msg,
        Chatbot_new chatbot' (access_token (bot w)) = None ->
        chatbot' (access_token (bot w)) (q_text question)
          (q_conversation_id question) (q_parent_id question)
          (ask_timeout (bot w)) = {| steps := []; failure := Some msg |} ->
        start_answering chatbot' w = start_answering chatbot w)
  /\ (answer_queues (bot w) !! question_id question = None ->
      exists w1 w2,
        start_answering chatbot w = (Ret tt, w1)
        /\ answer_queues (bot w1) !! question_id question =
           Some (Queue.Make (answer_queue_max_size (bot w)) [failed])
        /\ pop_answer (question_id question) w1 =
           (Ret {| text := Some ""; conversation_id := None; parent_id := None;
                   finished := true |}, w2)).
Proof.
  intros Hget Hnew s Hs.
  split; [|split; [|split; [|split]]].
  - intros w'. rewrite Hs. reflexivity.
  - rewrite Hs. reflexivity.
  - pose proof (start_answering_publishes chatbot w question q' Hget Hnew) as H.
    fold s in H. rewrite Hs in H. exact H.
  - intros chatbot' msg Hnew' Hs'.
    rewrite (start_answering_dequeue _ _ _ _ Hget Hnew),
      (start_answering_dequeue _ _ _ _ Hget Hnew').
    fold s. rewrite Hs, Hs'. reflexivity.
  - intros Hq.
    destruct (start_answering_run chatbot w question q' Hget Hnew Hq)
      as (w1 & Hrun & Hreg).
    { fold s. rewrite Hs. cbn [steps length].
      destruct (answer_queue_max_size (bot w)); [left; reflexivity | right; lia]. }
    fold s in Hreg. rewrite Hs in Hreg.
    change (published {| steps := []; failure := None |}) with [failed] in Hreg.
    destruct (poll_published _ w1 _ [] failed Hreg eq_refl (List.Forall_nil _) eq_refl)
      as (w2 & Hpoll & _).
    exists w1, w2. split; [exact Hrun|]. split; [exact Hreg | exact Hpoll].
Qed.

Lemma empty_stream_takes_failure_path_witness :
  exists w1 w2,
    start_answering silent_chatbot hello_world = (Ret tt, w1)
    /\ answer_queues (bot w1) !! "0" = Some (Queue.Make 64 [failed])
    /\ pop_answer "0" w1 =
       (Ret {| text := Some ""; conversation_id := None; parent_id := None;
               finished := true |}, w2).
Proof.
  destruct (empty_stream_takes_failure_path silent_chatbot hello_world
              {| q_text := "hello"; q_conversation_id := None;
                 q_parent_id := None; question_id := "0" |}
              (Queue.Make 0 []) eq_refl eq_refl eq_refl)
    as (_ & _ & _ & _ & H).
  apply H. reflexivity.
Defined.

(** ** The registry lock *)

(** C7, what the code does when the lock cannot be acquired.  [acquire]
    returns [False] after the timeout, and both operations go on: the
    publisher registers a buffer and puts the fragment into it, the poller
    reads the registry, and either of them releases the lock that the other
    thread holds. *)
Theorem lock_timeout_is_ignored :
  fst (lock_acquire contended_world) = Ret false
  /\ (exists w',
        queue_answer "q" (fragment "x") contended_world = (Ret tt, w')
        /\ answer_queues (bot contended_world) !! "q" = None
        /\ answer_queues (bot w') !! "q" = Some (Queue.Make 64 [fragment "x"])
        /\ answer_queues_lock (bot w') = false)
  /\ (exists w',
        pop_answer "q" contended_world = (Ret no_buffer_answer, w')
        /\ answer_queues_lock (bot w') = false).
Proof.
  split; [reflexivity|]. split.
  - eexists. split; [vm_compute; reflexivity|].
    split; [reflexivity|]. split; vm_compute; reflexivity.
  - eexists. split; [vm_compute; reflexivity | reflexivity].
Qed.

(** ** [ask] *)

Lemma put_unbounded {A} (x : A) (q : Queue.t A) :
  Queue.maxsize q = 0 ->
  Queue.put x q = Some (Queue.Make 0 (Queue.items q ++ [x])).
Proof.
  intros H. rewrite put_room by (left; exact H). now rewrite H.
Qed.

Lemma ask_run uuid4 text cid pid w :
  Queue.maxsize (question_queue (bot w)) = 0 ->
  ask uuid4 text cid pid w =
  (Ret {| q_text := text; q_conversation_id := cid; q_parent_id := pid;
          question_id := uuid4 (uuid_draws w) |},
   {| bot := with_question_queue
               (Queue.Make 0
                  (Queue.items (question_queue (bot w))
                   ++ [ {| q_text := text; q_conversation_id := cid;
                           q_parent_id := pid;
                           question_id := uuid4 (uuid_draws w) |} ]))
               (bot w);
      uuid_draws := S (uuid_draws w);
      log := log w |}).
Proof.
  intros Hmax. unfold ask, Question_init, mbind, M_bind, bind, gets.
  cbn [bot]. rewrite put_unbounded by exact Hmax. reflexivity.
Qed.

Lemma QuestionApi_post_run uuid4 text cid pid w :
  QuestionApi_post uuid4 text cid pid w =
  (match fst (ask uuid4 text cid pid w) with
   | Ret q => Ret (question_id q)
   | Raise e => Raise e
   | Block => Block
   end, snd (ask uuid4 text cid pid w)).
Proof.
  unfold QuestionApi_post, mbind, M_bind, bind.
  destruct (ask uuid4 text cid pid w) as [[q|e|] w']; reflexivity.
Qed.

Lemma ask_all_run uuid4 texts w :
  Queue.maxsize (question_queue (bot w)) = 0 ->
  ask_all uuid4 texts w = map uuid4 (seq (uuid_draws w) (length texts)).
Proof.
  revert w. induction texts as [|t texts IH]; intros w Hmax; [reflexivity|].
  cbn [ask_all]. rewrite QuestionApi_post_run, (ask_run _ _ _ _ _ Hmax).
  cbn [fst snd]. rewrite IH by (destruct w as [[] ? ?]; reflexivity).
  reflexivity.
Qed.

(** C9. Whatever the text and the ids, [ask] on the unbounded question
    queue of [Bot.__init__] does not wait and raises nothing: it builds the
    question with the identifier drawn from the generator, appends it to
    the question queue and returns it, so that the response of the request
    is that identifier; nothing looks at the text.  With a generator that never repeats itself the identifier is
    none of those drawn before, and the identifiers of a series of
    submissions are pairwise distinct. *)
Theorem ask_enqueues_fresh_question uuid4 text cid pid w :
  Inj (=) (=) uuid4 ->
  Queue.maxsize (question_queue (bot w)) = 0 ->
  let question := {| q_text := text; q_conversation_id := cid;
                     q_parent_id := pid;
                     question_id := uuid4 (uuid_draws w) |} in
  (exists w',
     ask uuid4 text cid pid w = (Ret question, w')
     /\ QuestionApi_post uuid4 text cid pid w = (Ret (question_id question), w')
     /\ Queue.items (question_queue (bot w')) =
        Queue.items (question_queue (bot w)) ++ [question]
     /\ Queue.maxsize (question_queue (bot w')) = 0
     /\ uuid_draws w' = S (uuid_draws w))
  /\ (forall n, n < uuid_draws w -> uuid4 n <> question_id question)
  /\ (forall texts, NoDup (ask_all uuid4 texts w)).
Proof.
  intros Hinj Hmax question. split; [|split].
  - eexists. split; [apply ask_run, Hmax|].
    rewrite QuestionApi_post_run, (ask_run _ _ _ _ _ Hmax).
    repeat split; destruct w as [[] ? ?]; reflexivity.
  - intros n Hn Heq. apply Hinj in Heq. cbn in Heq. lia.
  - intros texts. rewrite ask_all_run by exact Hmax.
    apply NoDup_fmap_2; [exact Hinj | apply NoDup_seq].
Qed.

Lemma ask_enqueues_fresh_question_witness :
  exists w',
    ask pretty "" None None (World_init 4) =
      (Ret {| q_text := ""; q_conversation_id := None; q_parent_id := None;
              question_id := "0" |}, w')
    /\ QuestionApi_post pretty "" None None (World_init 4) = (Ret "0", w')
    /\ Queue.items (question_queue (bot w')) =
       [ {| q_text := ""; q_conversation_id := None; q_parent_id := None;
            question_id := "0" |} ]
    /\ Queue.maxsize (question_queue (bot w')) = 0
    /\ uuid_draws w' = 1.
Proof.
  destruct (ask_enqueues_fresh_question pretty "" None None (World_init 4)
              pretty_nat_inj eq_refl) as (H & _).
  exact H.
Defined.

(** ** The capacity of the buffers *)

Lemma preserves_bind {A B} (m : M A) (k : A -> M B) :
  preserves m -> (forall a, preserves (k a)) -> preserves (m ≫= k).
Proof.
  intros Hm Hk w Hw. unfold mbind, M_bind, bind.
  specialize (Hm w Hw). destruct (m w) as [[a|e|] w']; cbn [snd] in *;
    [apply Hk, Hm | exact Hm..].
Qed.

Lemma preserves_try_except {A} (m : M A) (h : exn -> M A) :
  preserves m -> (forall e, preserves (h e)) -> preserves (try_except m h).
Proof.
  intros Hm Hh w Hw. unfold try_except.
  specialize (Hm w Hw). destruct (m w) as [[a|e|] w']; cbn [snd] in *;
    [exact Hm | apply Hh, Hm | exact Hm].
Qed.

Lemma preserves_same_registry {A} (m : M A) :
  (forall w, answer_queues (bot (snd (m w))) = answer_queues (bot w)
             /\ answer_queue_max_size (bot (snd (m w)))
                = answer_queue_max_size (bot w)) ->
  preserves m.
Proof.
  intros H w [Hmax Hq]. destruct (H w) as [H1 H2].
  split; [congruence|]. rewrite H1. exact Hq.
Qed.

Lemma preserves_ret {A} (a : A) : preserves (mret a).
Proof. apply preserves_same_registry. intros w. split; reflexivity. Qed.

Lemma preserves_raise {A} e : preserves (@raise A e).
Proof. apply preserves_same_registry. intros w. split; reflexivity. Qed.

Lemma preserves_gets {A} (f : Bot -> A) : preserves (gets f).
Proof. apply preserves_same_registry. intros w. split; reflexivity. Qed.

Lemma preserves_logger lv fmt : preserves (logger lv fmt).
Proof. apply preserves_same_registry. intros w. split; reflexivity. Qed.

Lemma preserves_queue_answer_lookup i : preserves (queue_answer_lookup i).
Proof.
  intros w Hw. rewrite queue_answer_lookup_run. cbn [snd].
  assert (H : forall j q, ensure i (bot w) !! j = Some q ->
                Queue.maxsize q = 64 /\ length (Queue.items q) <= 64).
  { destruct Hw as [Hmax Hq]. unfold ensure. intros j q.
    destruct (answer_queues (bot w) !! i) eqn:E; [apply Hq|].
    rewrite lookup_insert. case_decide.
    - intros [= <-]. cbn. split; [exact Hmax | lia].
    - apply Hq. }
  destruct w as [[] ? ?]. split; [apply Hw | exact H].
Qed.

Lemma preserves_queue_answer_put i a : preserves (queue_answer_put i a).
Proof.
  intros w Hw. unfold queue_answer_put, mbind, M_bind, bind, gets.
  destruct (answer_queues (bot w) !! i) as [q|] eqn:E; [|exact Hw].
  unfold Queue.put. destruct (Queue.full q) eqn:Hfull; [exact Hw|].
  cbn [snd modify].
  destruct Hw as [Hmax Hq]. destruct (Hq i q E) as [Hm Hlen].
  unfold Queue.full, Queue.qsize in Hfull. rewrite Hm in Hfull.
  apply andb_false_iff in Hfull as [Hfull|Hfull];
    [apply Nat.ltb_ge in Hfull; lia | apply Nat.leb_gt in Hfull].
  destruct w as [[] ? ?]. split; [exact Hmax|].
  cbn [bot answer_queues set_bot with_answer_queues] in *.
  intros j q'. rewrite lookup_insert. case_decide.
  - intros [= <-]. cbn. rewrite length_app. cbn. split; [exact Hm | lia].
  - apply Hq.
Qed.

Lemma preserves_queue_answer i a : preserves (queue_answer i a).
Proof.
  apply preserves_bind; [apply preserves_queue_answer_lookup|].
  intros _. apply preserves_queue_answer_put.
Qed.

Lemma drain_rest l st w :
  length (fst (drain l st w)) <= length l
  /\ (l <> [] -> length (fst (drain l st w)) < length l).
Proof.
  revert st w. induction l as [|a l IH]; intros st w; simpl.
  - split; [lia | congruence].
  - destruct (pop_answer_body a st w) as [[st'|e|] w'].
    + destruct (IH st' w') as [H _]. split; [lia | intros _; lia].
    + cbn. split; [lia | intros _; lia].
    + cbn. split; [lia | intros _; lia].
Qed.

(** The registry after a poll, whatever its outcome: the buffer polled
    holds a part of what it held, or is gone. *)
Lemma pop_answer_registry i w :
  answer_queue_max_size (bot (snd (pop_answer i w)))
  = answer_queue_max_size (bot w)
  /\ match answer_queues (bot w) !! i with
     | None => answer_queues (bot (snd (pop_answer i w))) = answer_queues (bot w)
     | Some q =>
         exists rest,
           length rest <= length (Queue.items q)
           /\ (Queue.items q <> [] -> length rest < length (Queue.items q))
           /\ (answer_queues (bot (snd (pop_answer i w)))
               = <[i := Queue.Make (Queue.maxsize q) rest]> (answer_queues (bot w))
               \/ answer_queues (bot (snd (pop_answer i w)))
                  = delete i (answer_queues (bot w)))
     end.
Proof.
  unfold pop_answer, mbind, M_bind, bind. rewrite pop_answer_lookup_run.
  destruct (answer_queues (bot w) !! i) as [q|] eqn:E.
  - unfold pop_answer_loop.
    pose proof (drain_bot (Queue.items q) locals_init (set_bot (with_lock false) w))
      as [Hb _].
    pose proof (drain_rest (Queue.items q) locals_init (set_bot (with_lock false) w))
      as [Hl1 Hl2].
    destruct (drain (Queue.items q) locals_init (set_bot (with_lock false) w))
      as [rest [r w1]]. cbn [fst snd] in *.
    destruct w1 as [b1 u1 l1]. cbn [bot] in Hb. subst b1.
    destruct w as [[] ? ?].
    destruct r as [st|e|]; cbn [snd set_bot bot].
    + unfold pop_answer_return. run_m. destruct (l_finished st); run_m.
      * split; [reflexivity|]. exists rest. repeat split; [assumption..|].
        right. cbn. apply delete_insert_eq.
      * split; [reflexivity|]. exists rest. repeat split; [assumption..|].
        left. reflexivity.
    + split; [reflexivity|]. exists rest. repeat split; [assumption..|].
      left. reflexivity.
    + split; [reflexivity|]. exists rest. repeat split; [assumption..|].
      left. reflexivity.
  - destruct w as [[] ? ?]. split; reflexivity.
Qed.

Lemma preserves_pop_answer i : preserves (pop_answer i).
Proof.
  intros w [Hmax Hq]. destruct (pop_answer_registry i w) as [H1 H2].
  split; [congruence|].
  destruct (answer_queues (bot w) !! i) as [q|] eqn:E.
  - destruct H2 as (rest & Hlen & _ & [-> | ->]); intros j q'.
    + rewrite lookup_insert. case_decide.
      * intros [= <-]. cbn. destruct (Hq i q E). split; [assumption | lia].
      * apply Hq.
    + rewrite lookup_delete. case_decide; [discriminate | apply Hq].
  - rewrite H2. exact Hq.
Qed.

Lemma preserves_ask uuid4 t c p : preserves (ask uuid4 t c p).
Proof.
  apply preserves_same_registry. intros w.
  unfold ask, Question_init, mbind, M_bind, bind, gets, modify, block, mret,
    M_ret, ret.
  cbn [bot]. destruct (Queue.put _ _); destruct w as [[] ? ?]; split; reflexivity.
Qed.

Lemma preserves_question_queue_get : preserves question_queue_get.
Proof.
  apply preserves_same_registry. intros w.
  unfold question_queue_get, mbind, M_bind, bind, gets, modify, raise, mret,
    M_ret, ret.
  destruct (Queue.get _) as [[q q']|]; destruct w as [[] ? ?]; split; reflexivity.
Qed.

Lemma preserves_for_loop i datas text_pos data :
  preserves (for_loop i datas text_pos data).
Proof.
  revert text_pos data. induction datas as [|d datas IH]; intros text_pos data.
  - apply (preserves_ret data).
  - cbn [for_loop]. apply preserves_bind; [apply preserves_queue_answer|].
    intros _. apply preserves_bind; [apply preserves_logger|].
    intros _. apply IH.
Qed.

Lemma preserves_start_answering (chatbot : Chatbot) :
  preserves (start_answering chatbot).
Proof.
  unfold start_answering.
  apply preserves_bind; [apply preserves_question_queue_get|]. intros question.
  apply preserves_bind; [apply preserves_gets|]. intros token.
  destruct (Chatbot_new chatbot token); [apply preserves_raise|].
  apply preserves_bind; [apply preserves_gets|]. intros timeout.
  apply preserves_bind; [apply preserves_logger|]. intros _.
  apply preserves_try_except; [|intros _; apply preserves_queue_answer].
  unfold start_answering_try.
  apply preserves_bind; [apply preserves_for_loop|]. intros data.
  destruct (failure _); [apply preserves_raise|].
  destruct data; [|apply preserves_raise].
  apply preserves_bind; [apply preserves_logger|]. intros _.
  apply preserves_queue_answer.
Qed.

Lemma preserves_worker_turn (chatbot : Chatbot) : preserves (worker_turn chatbot).
Proof.
  apply preserves_try_except; [apply preserves_start_answering|].
  intros []; first [apply (preserves_ret tt) | apply preserves_logger].
Qed.

Lemma preserves_pop_answer_lookup i : preserves (pop_answer_lookup i).
Proof.
  apply preserves_same_registry. intros w. rewrite pop_answer_lookup_run.
  destruct w as [[] ? ?]. split; reflexivity.
Qed.

Lemma preserves_pop_answer_body a st : preserves (pop_answer_body a st).
Proof.
  apply preserves_bind; [apply preserves_logger|]. intros _.
  destruct (finished a); [apply (preserves_ret _)|].
  destruct (text a); [apply (preserves_ret _) | apply preserves_raise].
Qed.

Lemma bounded_delete i w :
  bounded w ->
  bounded (set_bot (fun b => with_answer_queues (delete i (answer_queues b)) b) w).
Proof.
  intros [Hmax Hq]. destruct w as [[] ? ?]. split; [exact Hmax|].
  cbn in *. intros j q. rewrite lookup_delete. case_decide; [discriminate|].
  apply Hq.
Qed.

Lemma preserves_pop_answer_return i st : preserves (pop_answer_return i st).
Proof.
  apply preserves_bind; [|intros _; apply (preserves_ret _)].
  destruct (l_finished st); [|apply (preserves_ret tt)].
  intros w Hw. apply bounded_delete, Hw.
Qed.

Lemma bounded_get i w q x q' :
  bounded w ->
  answer_queues (bot w) !! i = Some q ->
  Queue.get q = Some (x, q') ->
  bounded (set_bot (fun b => with_answer_queues
                               (<[i := q']> (answer_queues b)) b) w).
Proof.
  intros [Hmax Hq] Hi Hget. destruct (Hq i q Hi) as [Hm Hlen].
  unfold Queue.get in Hget. destruct (Queue.items q) as [|y ys] eqn:E;
    [discriminate|]. injection Hget as <- <-.
  destruct w as [[] ? ?]. split; [exact Hmax|]. cbn in *.
  intros j q'. rewrite lookup_insert. case_decide.
  - intros [= <-]. cbn [Queue.maxsize Queue.items]. split; [exact Hm | lia].
  - apply Hq.
Qed.

(** A single step of a worker or of a poller keeps the buffers bounded. *)
Lemma sys_step_bounded question_id s t :
  bounded (world s) -> bounded (world (sys_step question_id s t)).
Proof.
  intros Hw. destruct t as [| |i a|i]; cbn [sys_step world];
    [| |apply preserves_queue_answer, Hw | apply preserves_pop_answer, Hw].
  - unfold worker_step. destruct (wk s) as [[|a rest]|a rest|e]; try exact Hw.
    + pose proof (preserves_queue_answer_lookup question_id (world s) Hw) as H.
      destruct (queue_answer_lookup question_id (world s)) as [[| |] w'];
        cbn [snd world] in *; assumption.
    + pose proof (preserves_queue_answer_put question_id a (world s) Hw) as H.
      destruct (queue_answer_put question_id a (world s)) as [[| |] w'];
        cbn [snd world] in *; assumption.
  - unfold poller_step. destruct (seen_finished s); [exact Hw|].
    destruct (pl s) as [|st].
    + pose proof (preserves_pop_answer_lookup question_id (world s) Hw) as H.
      destruct (pop_answer_lookup question_id (world s)) as [[[q|]|e|] w'];
        cbn [snd world] in *; assumption.
    + destruct (answer_queues (bot (world s)) !! question_id) as [q|] eqn:Hq;
        [|exact Hw].
      destruct (Queue.get q) as [[x q']|] eqn:Hget.
      * pose proof (bounded_get _ _ _ _ _ Hw Hq Hget) as H1.
        pose proof (preserves_pop_answer_body x st _ H1) as H2.
        destruct (pop_answer_body x st _) as [[| |] w']; cbn [snd world] in *;
          assumption.
      * pose proof (preserves_pop_answer_return question_id st (world s) Hw) as H.
        destruct (pop_answer_return question_id st (world s)) as [[| |] w'];
          cbn [snd world] in *; assumption.
Qed.

Lemma bounded_init n : bounded (World_init n).
Proof. split; [reflexivity|]. intros i q H. cbn in H. now rewrite lookup_empty in H. Qed.

Lemma reachable_bounded uuid4 w : reachable uuid4 w -> bounded w.
Proof.
  induction 1 as [n|o w _ IH|i s t _ IH];
    [apply bounded_init | | apply sys_step_bounded, IH].
  destruct o; cbn [exec].
  - apply preserves_ask, IH.
  - apply preserves_start_answering, IH.
  - apply preserves_worker_turn, IH.
  - apply preserves_queue_answer, IH.
  - apply preserves_queue_answer_lookup, IH.
  - apply preserves_queue_answer_put, IH.
  - apply preserves_pop_answer, IH.
Qed.

(** C8. In every state that the process can reach, every buffer has the
    capacity 64 and holds at most 64 fragments.  [queue_answer] on a buffer
    that holds 64 fragments waits and adds nothing; after a poll of that
    question, whatever its outcome, the same call goes through. *)
Theorem answer_buffers_bounded uuid4 w :
  reachable uuid4 w ->
  answer_queue_max_size (bot w) = 64
  /\ (forall i q, answer_queues (bot w) !! i = Some q ->
        Queue.maxsize q = 64 /\ length (Queue.items q) <= 64)
  /\ (forall i q a,
        answer_queues (bot w) !! i = Some q ->
        length (Queue.items q) = 64 ->
        (exists w', queue_answer i a w = (Block, w')
                    /\ answer_queues (bot w') = answer_queues (bot w))
        /\ (exists w',
              queue_answer i a (snd (pop_answer i w)) = (Ret tt, w'))).
Proof.
  intros Hr. pose proof (reachable_bounded uuid4 w Hr) as [Hmax Hq].
  split; [exact Hmax|]. split; [exact Hq|].
  intros i q a E Hlen. destruct (Hq i q E) as [Hm _]. split.
  - rewrite queue_answer_run. unfold target. rewrite E. cbn [from_option id].
    rewrite put_full by lia. eexists. split; [reflexivity|].
    destruct w as [[] ? ?]. cbn in *. unfold ensure. cbn. now rewrite E.
  - rewrite queue_answer_run.
    destruct (pop_answer_registry i w) as [H1 H2]. rewrite E in H2.
    destruct H2 as (rest & _ & Hlt & Hreg).
    assert (Hroom : has_room (target i (bot (snd (pop_answer i w)))) 1).
    { unfold target. right.
      destruct Hreg as [-> | ->].
      - rewrite lookup_insert_eq. cbn [from_option id Queue.maxsize Queue.items].
        assert (Queue.items q <> []) by (intros H0; rewrite H0 in Hlen; discriminate).
        specialize (Hlt H). lia.
      - rewrite lookup_delete_eq.
        cbn [from_option id Queue.new Queue.maxsize Queue.items length].
        rewrite H1, Hmax. lia. }
    rewrite put_room by exact Hroom. eexists. reflexivity.
Qed.

(** ** The steps of the worker and the poller *)

Lemma worker_step_done question_id s :
  wk s = W_next [] -> worker_step question_id s = s.
Proof. intros H. unfold worker_step. now rewrite H. Qed.

Lemma worker_step_lookup question_id s a rest :
  wk s = W_next (a :: rest) ->
  exists w',
    worker_step question_id s = mkSystem w' (W_put a rest) (pl s) (polled s)
    /\ answer_queues (bot w') = ensure question_id (bot (world s)).
Proof.
  intros H. unfold worker_step. rewrite H, queue_answer_lookup_run.
  eexists. split; [reflexivity|]. destruct (world s) as [[] ? ?]. reflexivity.
Qed.

Lemma worker_step_blocked question_id s a rest q :
  wk s = W_put a rest -> reg question_id s = Some q ->
  Queue.put a q = None ->
  worker_step question_id s = s.
Proof.
  unfold reg. intros H Hq Hput.
  unfold worker_step, queue_answer_put, mbind, M_bind, bind, gets.
  now rewrite H, Hq, Hput.
Qed.

Lemma worker_step_put question_id s a rest q q' :
  wk s = W_put a rest -> reg question_id s = Some q ->
  Queue.put a q = Some q' ->
  exists w',
    worker_step question_id s = mkSystem w' (W_next rest) (pl s) (polled s)
    /\ answer_queues (bot w') = <[question_id := q']> (answer_queues (bot (world s))).
Proof.
  unfold reg. intros H Hq Hput.
  unfold worker_step, queue_answer_put, mbind, M_bind, bind, gets.
  rewrite H, Hq, Hput. eexists. split; [reflexivity|].
  destruct (world s) as [[] ? ?]. reflexivity.
Qed.

Lemma poller_step_seen question_id s :
  seen_finished s = true -> poller_step question_id s = s.
Proof. intros H. unfold poller_step. now rewrite H. Qed.

Lemma poller_step_absent question_id s :
  seen_finished s = false -> pl s = P_idle -> reg question_id s = None ->
  exists w',
    poller_step question_id s
    = mkSystem w' (wk s) P_idle (polled s ++ [no_buffer_answer])
    /\ answer_queues (bot w') = answer_queues (bot (world s)).
Proof.
  unfold reg. intros Hs Hp Hq.
  unfold poller_step. rewrite Hs, Hp, pop_answer_lookup_run, Hq.
  eexists. split; [reflexivity|]. destruct (world s) as [[] ? ?]. reflexivity.
Qed.

Lemma poller_step_found question_id s q :
  seen_finished s = false -> pl s = P_idle -> reg question_id s = Some q ->
  exists w',
    poller_step question_id s
    = mkSystem w' (wk s) (P_loop locals_init) (polled s)
    /\ answer_queues (bot w') = answer_queues (bot (world s)).
Proof.
  unfold reg. intros Hs Hp Hq.
  unfold poller_step. rewrite Hs, Hp, pop_answer_lookup_run, Hq.
  eexists. split; [reflexivity|]. destruct (world s) as [[] ? ?]. reflexivity.
Qed.

Lemma poller_step_return question_id s st q :
  seen_finished s = false -> pl s = P_loop st -> reg question_id s = Some q ->
  Queue.items q = [] ->
  exists w',
    poller_step question_id s
    = mkSystem w' (wk s) P_idle (polled s ++ [answer_of st])
    /\ answer_queues (bot w') =
       (if l_finished st then delete question_id (answer_queues (bot (world s)))
        else answer_queues (bot (world s))).
Proof.
  unfold reg. intros Hs Hp Hq Hitems.
  unfold poller_step. rewrite Hs, Hp, Hq. unfold Queue.get. rewrite Hitems.
  unfold pop_answer_return, answer_of. run_m.
  destruct (l_finished st); eexists; (split; [reflexivity|]);
    destruct (world s) as [[] ? ?]; reflexivity.
Qed.

Lemma poller_step_pop question_id s st q x xs :
  seen_finished s = false -> pl s = P_loop st -> reg question_id s = Some q ->
  Queue.items q = x :: xs -> has_text x ->
  exists w',
    poller_step question_id s
    = mkSystem w' (wk s) (P_loop (absorb st x)) (polled s)
    /\ answer_queues (bot w') =
       <[question_id := Queue.Make (Queue.maxsize q) xs]>
         (answer_queues (bot (world s))).
Proof.
  unfold reg. intros Hs Hp Hq Hitems Hx.
  unfold poller_step. rewrite Hs, Hp, Hq. unfold Queue.get. rewrite Hitems.
  rewrite pop_answer_body_run by exact Hx.
  eexists. split; [reflexivity|]. destruct (world s) as [[] ? ?]. reflexivity.
Qed.

Lemma reachable_published uuid4 l w :
  reachable uuid4 w ->
  reachable uuid4 (fold_left (fun w a => snd (queue_answer "q" a w)) l w).
Proof.
  revert w. induction l as [|a l IH]; intros w Hw; [exact Hw|].
  simpl. apply IH. apply (reachable_exec uuid4 (Op_queue_answer "q" a) w Hw).
Qed.

Lemma answer_buffers_bounded_witness :
  (exists w',
     queue_answer "q" terminal (published_world (repeat (fragment "x") 64))
     = (Block, w')
     /\ answer_queues (bot w')
        = answer_queues (bot (published_world (repeat (fragment "x") 64))))
  /\ (exists w',
        queue_answer "q" terminal
          (snd (pop_answer "q" (published_world (repeat (fragment "x") 64))))
        = (Ret tt, w')).
Proof.
  destruct (answer_buffers_bounded pretty
              (published_world (repeat (fragment "x") 64))
              (reachable_published pretty _ _ (reachable_init pretty 4)))
    as (_ & _ & H).
  apply (H "q" (Queue.Make 64 (repeat (fragment "x") 64)) terminal).
  - vm_compute. reflexivity.
  - vm_compute. reflexivity.
Defined.

(** ** The steps and the calls *)

(** Two steps of the worker without a step of the poller in between are
    one call of [queue_answer]. *)
Lemma worker_steps_queue_answer question_id s a rest :
  wk s = W_next (a :: rest) ->
  worker_step question_id (worker_step question_id s) =
  match queue_answer question_id a (world s) with
  | (Ret _, w') => mkSystem w' (W_next rest) (pl s) (polled s)
  | (Raise e, w') => mkSystem w' (W_raised e) (pl s) (polled s)
  | (Block, w') => mkSystem w' (W_put a rest) (pl s) (polled s)
  end.
Proof.
  intros Hw. unfold worker_step at 2. rewrite Hw.
  unfold queue_answer, mbind, M_bind, bind.
  rewrite queue_answer_lookup_run.
  set (w1 := set_bot _ (world s)).
  unfold worker_step. cbn [wk world pl polled].
  unfold queue_answer_put, mbind, M_bind, bind, gets, modify, block, mret,
    M_ret, ret.
  destruct (answer_queues (bot w1) !! question_id) as [q|]; [|reflexivity].
  destruct (Queue.put a q); reflexivity.
Qed.

Lemma queue_eta {A} (q : Queue.t A) :
  Queue.Make (Queue.maxsize q) (Queue.items q) = q.
Proof. destruct q; reflexivity. Qed.

Lemma drain_world l st w :
  Forall has_text l ->
  drain l st w = ([], (Ret (fold_left absorb l st), log_pops l w)).
Proof.
  intros Hl. revert st w. induction Hl as [|a l Ha Hl IH]; intros st w.
  - reflexivity.
  - cbn [drain]. rewrite pop_answer_body_run by exact Ha. apply IH.
Qed.

Lemma log_pops_stored question_id q l w :
  log_pops l (stored question_id q w) = stored question_id q (log_pops l w).
Proof.
  revert w. induction l as [|a l IH]; intros w; [reflexivity|].
  unfold log_pops in *. cbn [fold_left].
  change (log_pop (stored question_id q w))
    with (stored question_id q (log_pop w)).
  apply IH.
Qed.

Lemma stored_twice question_id q1 q2 w :
  stored question_id q2 (stored question_id q1 w) = stored question_id q2 w.
Proof.
  destruct w as [[] ? ?]. unfold stored, set_bot, with_answer_queues. cbn.
  now rewrite insert_insert_eq.
Qed.

Lemma stored_same question_id q w :
  answer_queues (bot w) !! question_id = Some q -> stored question_id q w = w.
Proof.
  intros Hq. destruct w as [[] ? ?]. unfold stored, set_bot, with_answer_queues.
  cbn in *. now rewrite insert_id.
Qed.

Lemma pop_answer_return_run question_id st w :
  pop_answer_return question_id st w =
  (Ret (answer_of st),
   if l_finished st
   then set_bot (fun b => with_answer_queues
                            (delete question_id (answer_queues b)) b) w
   else w).
Proof.
  unfold pop_answer_return, answer_of. run_m.
  destruct (l_finished st); reflexivity.
Qed.

(** The steps of a poll that no step of the worker interrupts: the loop. *)
Lemma poller_loop_run question_id items :
  forall st s q,
    seen_finished s = false -> pl s = P_loop st ->
    reg question_id s = Some q -> Queue.items q = items ->
    Forall has_text items ->
    run question_id (repeat Poller (S (length items))) s
    = mkSystem
        (snd (pop_answer_return question_id (fold_left absorb items st)
                (stored question_id (Queue.Make (Queue.maxsize q) [])
                   (log_pops items (world s)))))
        (wk s) P_idle (polled s ++ [answer_of (fold_left absorb items st)]).
Proof.
  induction items as [|x xs IH]; intros st s q Hs Hp Hq Hitems Hall.
  - cbn [length repeat run fold_left sys_step log_pops].
    rewrite stored_same by (rewrite <- Hitems, queue_eta; exact Hq).
    unfold poller_step. rewrite Hs, Hp. unfold reg in Hq. rewrite Hq.
    unfold Queue.get. rewrite Hitems, pop_answer_return_run. reflexivity.
  - inversion Hall as [|? ? Hx Hxs]; subst.
    change (run question_id (repeat Poller (S (length (x :: xs)))) s)
      with (run question_id (repeat Poller (S (length xs)))
              (poller_step question_id s)).
    assert (Hstep : poller_step question_id s
                    = mkSystem
                        (log_pop (stored question_id
                                    (Queue.Make (Queue.maxsize q) xs) (world s)))
                        (wk s) (P_loop (absorb st x)) (polled s)).
    { unfold poller_step. rewrite Hs, Hp. unfold reg in Hq. rewrite Hq.
      unfold Queue.get. rewrite Hitems.
      rewrite pop_answer_body_run by exact Hx. reflexivity. }
    rewrite Hstep.
    rewrite (IH (absorb st x) _ (Queue.Make (Queue.maxsize q) xs));
      try reflexivity; try assumption.
    + cbn [world wk polled Queue.maxsize fold_left].
      change (log_pop (stored question_id (Queue.Make (Queue.maxsize q) xs)
                         (world s)))
        with (stored question_id (Queue.Make (Queue.maxsize q) xs)
                (log_pop (world s))).
      rewrite log_pops_stored, stored_twice. reflexivity.
    + unfold reg. cbn [world]. destruct (world s) as [[] ? ?]. cbn.
      apply lookup_insert_eq.
Qed.

(** The steps of a poll that no step of the worker interrupts are one call
    of [pop_answer]: the same answer and the same world. *)
Lemma poller_steps_pop_answer question_id s :
  seen_finished s = false -> pl s = P_idle ->
  (forall q, reg question_id s = Some q -> Forall has_text (Queue.items q)) ->
  exists n a w',
    pop_answer question_id (world s) = (Ret a, w')
    /\ run question_id (repeat Poller n) s
       = mkSystem w' (wk s) P_idle (polled s ++ [a]).
Proof.
  intros Hs Hp Hall. destruct (reg question_id s) as [q|] eqn:Hq.
  - specialize (Hall q eq_refl).
    exists (S (S (length (Queue.items q)))).
    assert (Hstep : poller_step question_id s
                    = mkSystem (set_bot (with_lock false) (world s)) (wk s)
                        (P_loop locals_init) (polled s)).
    { unfold poller_step. rewrite Hs, Hp, pop_answer_lookup_run.
      unfold reg in Hq. rewrite Hq. reflexivity. }
    change (run question_id (repeat Poller (S (S (length (Queue.items q))))) s)
      with (run question_id (repeat Poller (S (length (Queue.items q))))
              (poller_step question_id s)).
    rewrite Hstep.
    rewrite (poller_loop_run question_id (Queue.items q) locals_init
               (mkSystem (set_bot (with_lock false) (world s)) (wk s)
                  (P_loop locals_init) (polled s))
               q Hs eq_refl Hq eq_refl Hall).
    cbn [world wk polled].
    eexists _, _. split; [|reflexivity].
    unfold pop_answer, mbind, M_bind, bind.
    unfold reg in Hq. rewrite pop_answer_lookup_run, Hq.
    unfold pop_answer_loop. rewrite drain_world by exact Hall.
    fold (stored question_id (Queue.Make (Queue.maxsize q) [])
            (log_pops (Queue.items q) (set_bot (with_lock false) (world s)))).
    rewrite pop_answer_return_run. reflexivity.
  - exists 1. eexists _, _.
    split; [apply pop_answer_absent_run; exact Hq|].
    cbn [repeat run fold_left sys_step]. unfold poller_step.
    rewrite Hs, Hp, pop_answer_lookup_run. unfold reg in Hq. rewrite Hq.
    reflexivity.
Qed.

(** ** The invariant of the worker and the poller of one question *)

Lemma terminal_last_shape l c :
  Forall (fun a => finished a = false /\ is_Some (text a)) l ->
  finished c = true ->
  terminal_last (l ++ [c]).
Proof.
  intros Hl Hc pre x post Heq.
  destruct post as [|y post].
  - apply app_inj_tail in Heq as [_ <-]. split.
    + split; [reflexivity | intros _; exact Hc].
    + intros H. congruence.
  - assert (Hin : x ∈ l).
    { destruct (exists_last (l:=y :: post)) as (post' & z & Hz); [discriminate|].
      rewrite Hz in Heq.
      change (pre ++ x :: post' ++ [z]) with (pre ++ (x :: post') ++ [z]) in Heq.
      rewrite app_assoc in Heq. apply app_inj_tail in Heq as [-> _].
      rewrite elem_of_app, elem_of_cons. auto. }
    rewrite Forall_forall in Hl. destruct (Hl x Hin) as [Hf Ht].
    split; [split; intros; congruence | intros _; exact Ht].
Qed.

Lemma Inv_init question_id fragments w :
  answer_queues (bot w) !! question_id = None ->
  fragments <> [] ->
  Inv question_id fragments (system_init w fragments).
Proof.
  intros Hq Hne.
  assert (Ha : ahead question_id (system_init w fragments) = fragments).
  { unfold ahead, queue_items, reg. cbn. now rewrite Hq. }
  split.
  - exists []. rewrite Ha. split; reflexivity.
  - rewrite Ha. cbn. split; [discriminate | intros H; contradiction].
  - discriminate.
  - discriminate.
  - discriminate.
  - discriminate.
Qed.

(** A step of the worker moves fragments from its list to the buffer. *)
Lemma Inv_worker question_id fragments s s' :
  Inv question_id fragments s ->
  pl s' = pl s -> polled s' = polled s ->
  ahead question_id s' = ahead question_id s ->
  is_Some (reg question_id s') ->
  (forall e, wk s' <> W_raised e) ->
  Inv question_id fragments s'.
Proof.
  intros [Hsplit Hflag Hseen Hput Hloop Hraised] Hpl Hpolled Hahead Hreg Hr.
  split.
  - unfold received in *. rewrite Hahead, Hpl, Hpolled. exact Hsplit.
  - unfold seen_finished in *. rewrite Hahead, Hpl, Hpolled. exact Hflag.
  - unfold seen_finished in *. rewrite Hpl, Hpolled. exact Hseen.
  - intros _ _ _. exact Hreg.
  - intros _ _. exact Hreg.
  - exact Hr.
Qed.

Lemma worker_step_Inv question_id fragments s :
  Inv question_id fragments s ->
  Inv question_id fragments (worker_step question_id s).
Proof.
  intros HI. destruct (wk s) as [[|a rest]|a rest|e] eqn:Hw.
  - now rewrite worker_step_done.
  - destruct (worker_step_lookup question_id s a rest Hw) as (w' & -> & Hreg).
    assert (Hr : reg question_id (mkSystem w' (W_put a rest) (pl s) (polled s))
                 = Some (target question_id (bot (world s)))).
    { unfold reg. cbn [world]. rewrite Hreg. apply ensure_lookup. }
    apply (Inv_worker _ _ s _ HI); try reflexivity.
    + unfold ahead, queue_items. rewrite Hr, Hw. cbn [wk unpublished].
      unfold target, reg. destruct (answer_queues (bot (world s)) !! question_id);
        reflexivity.
    + rewrite Hr. now eexists.
    + discriminate.
  - destruct (inv_put _ _ _ HI a rest Hw) as [q Hq].
    destruct (Queue.put a q) as [q'|] eqn:Hput.
    + destruct (worker_step_put question_id s a rest q q' Hw Hq Hput)
        as (w' & -> & Hreg).
      assert (Hr : reg question_id (mkSystem w' (W_next rest) (pl s) (polled s))
                   = Some q').
      { unfold reg. cbn [world]. rewrite Hreg. apply lookup_insert_eq. }
      apply (Inv_worker _ _ s _ HI); try reflexivity.
      * unfold ahead, queue_items. rewrite Hr, Hq, Hw. cbn [wk unpublished].
        unfold Queue.put in Hput. destruct (Queue.full q); [discriminate|].
        injection Hput as <-. cbn [Queue.items]. now rewrite <- app_assoc.
      * rewrite Hr. now eexists.
      * discriminate.
    + now rewrite (worker_step_blocked question_id s a rest q Hw Hq Hput).
  - destruct (inv_raised _ _ _ HI e Hw).
Qed.

Lemma seen_finished_snoc s w k p a :
  seen_finished (mkSystem w k p (polled s ++ [a]))
  = seen_finished s || finished a.
Proof.
  unfold seen_finished. cbn [polled]. rewrite existsb_app. cbn.
  now rewrite orb_false_r.
Qed.

Lemma concat_text_snoc l a :
  concat_text (l ++ [a]) = concat_text l +:+ text_of a.
Proof.
  rewrite concat_text_app. unfold concat_text at 2. cbn [fold_right].
  now rewrite append_nil_r.
Qed.

Lemma fragments_text_snoc l x :
  fragments_text (l ++ [x]) =
  fragments_text l +:+ (if finished x then "" else text_of x).
Proof.
  rewrite fragments_text_app, fragments_text_cons.
  change (fragments_text []) with "".
  destruct (finished x); [reflexivity | now rewrite append_nil_r].
Qed.

Lemma poller_step_Inv question_id fragments s :
  terminal_last fragments ->
  Inv question_id fragments s ->
  Inv question_id fragments (poller_step question_id s).
Proof.
  intros HT HI. destruct (seen_finished s) eqn:Hs;
    [now rewrite poller_step_seen|].
  pose proof HI as [Hsplit Hflag Hseen Hput Hloop Hraised].
  destruct (pl s) as [|st] eqn:Hp.
  - destruct (reg question_id s) as [q|] eqn:Hq.
    + destruct (poller_step_found question_id s q Hs Hp Hq) as (w' & -> & Hreg).
      assert (Hr : reg question_id
                     (mkSystem w' (wk s) (P_loop locals_init) (polled s))
                   = reg question_id s).
      { unfold reg. cbn [world]. now rewrite Hreg. }
      assert (Ha : ahead question_id
                     (mkSystem w' (wk s) (P_loop locals_init) (polled s))
                   = ahead question_id s).
      { unfold ahead, queue_items. now rewrite Hr. }
      split.
      * rewrite Ha. unfold received in *. rewrite Hp in Hsplit. exact Hsplit.
      * rewrite Ha. unfold seen_finished in *. cbn [pl polled in_hand].
        cbn [in_hand] in Hflag. exact Hflag.
      * unfold seen_finished in *. cbn [polled]. congruence.
      * intros a rest _. rewrite Hr, Hq. now eexists.
      * intros st _. rewrite Hr, Hq. now eexists.
      * exact Hraised.
    + destruct (poller_step_absent question_id s Hs Hp Hq) as (w' & -> & Hreg).
      assert (Hr : reg question_id
                     (mkSystem w' (wk s) P_idle (polled s ++ [no_buffer_answer]))
                   = reg question_id s).
      { unfold reg. cbn [world]. now rewrite Hreg. }
      assert (Ha : ahead question_id
                     (mkSystem w' (wk s) P_idle (polled s ++ [no_buffer_answer]))
                   = ahead question_id s).
      { unfold ahead, queue_items. now rewrite Hr. }
      split.
      * rewrite Ha. unfold received in *. rewrite Hp in Hsplit.
        cbn [pl polled]. rewrite concat_text_snoc.
        change (text_of no_buffer_answer) with "". rewrite append_nil_r.
        exact Hsplit.
      * rewrite Ha, seen_finished_snoc. cbn [pl finished no_buffer_answer].
        rewrite orb_false_r. exact Hflag.
      * reflexivity.
      * intros a rest Hw. rewrite Hr, Hq. apply (Hput a rest Hw).
      * discriminate.
      * exact Hraised.
  - destruct (Hloop st eq_refl) as [q Hq].
    destruct (Queue.items q) as [|x xs] eqn:Hitems.
    + destruct (poller_step_return question_id s st q Hs Hp Hq Hitems)
        as (w' & -> & Hreg).
      set (s' := mkSystem w' (wk s) P_idle (polled s ++ [answer_of st])).
      assert (Hqi : queue_items question_id s = [])
        by (unfold queue_items; now rewrite Hq).
      assert (Hqi' : queue_items question_id s' = []).
      { unfold queue_items, reg, s'. cbn [world]. rewrite Hreg.
        destruct (l_finished st).
        - now rewrite lookup_delete_eq.
        - unfold reg in Hq. now rewrite Hq. }
      assert (Ha : ahead question_id s' = ahead question_id s).
      { unfold ahead. now rewrite Hqi, Hqi'. }
      cbn [in_hand] in Hflag. rewrite Hs, orb_false_r in Hflag.
      split.
      * rewrite Ha. unfold received in *. rewrite Hp in Hsplit.
        cbn [pl polled in_hand s']. rewrite concat_text_snoc.
        change (text_of (answer_of st)) with (l_text st).
        change (l_text locals_init) with "". rewrite append_nil_r.
        exact Hsplit.
      * rewrite Ha. unfold s'. rewrite seen_finished_snoc, Hs.
        cbn [pl in_hand l_finished locals_init finished answer_of orb].
        exact Hflag.
      * reflexivity.
      * intros a rest Hw. cbn [wk s'] in Hw.
        destruct (l_finished st) eqn:Hf.
        -- destruct Hflag as [Hflag _]. specialize (Hflag eq_refl).
           unfold ahead in Hflag. rewrite Hw in Hflag.
           apply app_eq_nil in Hflag as [_ Hflag]. discriminate.
        -- unfold reg, s'. cbn [world]. rewrite Hreg.
           apply (Hput a rest Hw).
      * discriminate.
      * exact Hraised.
    + destruct Hsplit as (consumed & Hfr & Hrec).
      assert (Hah : ahead question_id s = x :: xs ++ unpublished (wk s)).
      { unfold ahead, queue_items. now rewrite Hq, Hitems. }
      rewrite Hah in Hfr.
      destruct (HT consumed x (xs ++ unpublished (wk s)) Hfr) as [Hlast Hx].
      destruct (poller_step_pop question_id s st q x xs Hs Hp Hq Hitems Hx)
        as (w' & -> & Hreg).
      set (s' := mkSystem w' (wk s) (P_loop (absorb st x)) (polled s)).
      assert (Hr : reg question_id s' = Some (Queue.Make (Queue.maxsize q) xs)).
      { unfold reg, s'. cbn [world]. rewrite Hreg. apply lookup_insert_eq. }
      assert (Ha : ahead question_id s' = xs ++ unpublished (wk s)).
      { unfold ahead, queue_items. now rewrite Hr. }
      split.
      * exists (consumed ++ [x]). rewrite Ha, <- app_assoc. split; [exact Hfr|].
        unfold received in *. rewrite Hp in Hrec. cbn [pl polled in_hand s'] in *.
        rewrite fragments_text_snoc, <- Hrec. unfold absorb.
        destruct (finished x); cbn [l_text].
        -- now rewrite append_nil_r.
        -- now rewrite append_assoc.
      * rewrite Ha. cbn [pl in_hand s'].
        replace (seen_finished s') with false by (symmetry; exact Hs).
        rewrite orb_false_r.
        replace (l_finished (absorb st x)) with (finished x)
          by (unfold absorb; destruct (finished x); reflexivity).
        exact Hlast.
      * intros H. unfold seen_finished in *. cbn [polled s'] in H. congruence.
      * intros a rest _. rewrite Hr. now eexists.
      * intros st' _. rewrite Hr. now eexists.
      * exact Hraised.
Qed.

(** A call of [queue_answer] or [pop_answer] for another question leaves
    the buffer of this one alone. *)
Lemma queue_answer_foreign question_id i a w :
  i <> question_id ->
  answer_queues (bot (snd (queue_answer i a w))) !! question_id
  = answer_queues (bot w) !! question_id.
Proof.
  intros Hi. rewrite queue_answer_run.
  destruct (Queue.put a (target i (bot w))); destruct w as [[] ? ?];
    cbn [snd set_bot bot with_lock with_answer_queues answer_queues].
  - now apply lookup_insert_ne.
  - unfold ensure. cbn [answer_queues answer_queue_max_size].
    destruct (_ !! i); [reflexivity | now apply lookup_insert_ne].
Qed.

Lemma pop_answer_foreign question_id i w :
  i <> question_id ->
  answer_queues (bot (snd (pop_answer i w))) !! question_id
  = answer_queues (bot w) !! question_id.
Proof.
  intros Hi. destruct (pop_answer_registry i w) as [_ H].
  destruct (answer_queues (bot w) !! i) as [q|].
  - destruct H as (rest & _ & _ & [-> | ->]).
    + now apply lookup_insert_ne.
    + now apply lookup_delete_ne.
  - now rewrite H.
Qed.

Lemma foreign_step_Inv question_id fragments s w' :
  Inv question_id fragments s ->
  answer_queues (bot w') !! question_id = reg question_id s ->
  Inv question_id fragments (mkSystem w' (wk s) (pl s) (polled s)).
Proof.
  intros [Hsplit Hflag Hseen Hput Hloop Hraised] Hreg.
  assert (Hr : reg question_id (mkSystem w' (wk s) (pl s) (polled s))
               = reg question_id s) by exact Hreg.
  assert (Ha : ahead question_id (mkSystem w' (wk s) (pl s) (polled s))
               = ahead question_id s).
  { unfold ahead, queue_items. now rewrite Hr. }
  split.
  - rewrite Ha. exact Hsplit.
  - rewrite Ha. exact Hflag.
  - exact Hseen.
  - intros a rest Hw. rewrite Hr. apply (Hput a rest Hw).
  - intros st Hp. rewrite Hr. apply (Hloop st Hp).
  - exact Hraised.
Qed.

Lemma run_Inv question_id fragments schedule s :
  terminal_last fragments ->
  Forall (foreign question_id) schedule ->
  Inv question_id fragments s ->
  Inv question_id fragments (run question_id schedule s).
Proof.
  intros HT Hf. revert s.
  induction Hf as [|t schedule Ht _ IH]; intros s HI; [exact HI|].
  cbn [run fold_left]. apply IH. destruct t as [| |i a|i]; cbn [sys_step].
  - now apply worker_step_Inv.
  - now apply poller_step_Inv.
  - apply foreign_step_Inv; [exact HI|]. now apply queue_answer_foreign.
  - apply foreign_step_Inv; [exact HI|]. now apply pop_answer_foreign.
Qed.

(** Once a poll has returned [finished], all the text has arrived. *)
Lemma Inv_finished question_id fragments s :
  Inv question_id fragments s ->
  seen_finished s = true ->
  concat_text (polled s) = fragments_text fragments.
Proof.
  intros [Hsplit Hflag Hseen _ _ _] Hs.
  destruct Hsplit as (consumed & Hfr & Hrec).
  destruct Hflag as [Hflag _]. rewrite Hs, orb_true_r in Hflag.
  rewrite (Hflag eq_refl), app_nil_r in Hfr. subst consumed.
  unfold received in Hrec. rewrite (Hseen Hs) in Hrec. cbn in Hrec.
  now rewrite append_nil_r in Hrec.
Qed.

(** ** Progress when the worker and the poller take turns *)

Lemma queue_items_ensure question_id s w' k p l :
  answer_queues (bot w') = ensure question_id (bot (world s)) ->
  queue_items question_id (mkSystem w' k p l) = queue_items question_id s.
Proof.
  intros H. unfold queue_items, reg. cbn [world]. rewrite H, ensure_lookup.
  unfold target. destruct (answer_queues (bot (world s)) !! question_id);
    reflexivity.
Qed.

Lemma queue_items_insert question_id s w' k p l q :
  answer_queues (bot w') = <[question_id := q]> (answer_queues (bot (world s))) ->
  queue_items question_id (mkSystem w' k p l) = Queue.items q.
Proof.
  intros H. unfold queue_items, reg. cbn [world].
  now rewrite H, lookup_insert_eq.
Qed.

Lemma queue_items_same question_id s w' k p l :
  answer_queues (bot w') = answer_queues (bot (world s)) ->
  queue_items question_id (mkSystem w' k p l) = queue_items question_id s.
Proof. intros H. unfold queue_items, reg. cbn [world]. now rewrite H. Qed.

Lemma put_blocked_nonempty {A} (x : A) (q : Queue.t A) :
  Queue.put x q = None -> Queue.items q <> [].
Proof.
  unfold Queue.put, Queue.full, Queue.qsize.
  destruct (0 <? Queue.maxsize q) eqn:E1; [|discriminate].
  destruct (Queue.maxsize q <=? length (Queue.items q)) eqn:E2; [|discriminate].
  intros _ H. rewrite H in E2. apply Nat.ltb_lt in E1. apply Nat.leb_le in E2.
  cbn in E2. lia.
Qed.

(** The worker either takes a step of its own, or it has nothing left to
    publish, or it waits at a buffer that is not empty. *)
Lemma worker_step_measure question_id fragments s :
  Inv question_id fragments s ->
  (worker_step question_id s = s
   /\ (unpublished (wk s) = [] \/ queue_items question_id s <> []))
  \/ (measure question_id (worker_step question_id s) + 2
        <= measure question_id s
      /\ polled (worker_step question_id s) = polled s).
Proof.
  intros HI. destruct (wk s) as [[|a rest]|a rest|e] eqn:Hw.
  - left. split; [now apply worker_step_done | now left].
  - right. destruct (worker_step_lookup question_id s a rest Hw) as (w' & -> & Hreg).
    unfold measure. rewrite (queue_items_ensure _ _ _ _ _ _ Hreg), Hw.
    cbn [wk pl polled worker_steps length]. split; [lia | reflexivity].
  - destruct (inv_put _ _ _ HI a rest Hw) as [q Hq].
    destruct (Queue.put a q) as [q'|] eqn:Hput.
    + right.
      destruct (worker_step_put question_id s a rest q q' Hw Hq Hput)
        as (w' & -> & Hreg).
      unfold measure. rewrite (queue_items_insert _ _ _ _ _ _ _ Hreg), Hw.
      cbn [wk pl polled worker_steps].
      unfold queue_items. rewrite Hq.
      unfold Queue.put in Hput. destruct (Queue.full q); [discriminate|].
      injection Hput as <-. cbn [Queue.items]. rewrite length_app.
      cbn [length]. split; [lia | reflexivity].
    + left. split; [now apply (worker_step_blocked _ _ a rest q)|].
      right. unfold queue_items. rewrite Hq.
      now apply (put_blocked_nonempty a).
  - destruct (inv_raised _ _ _ HI e Hw).
Qed.

(** A step of the poller costs at most one turn; when the worker has
    nothing to publish or the buffer is not empty, it ends the polling or
    gains a turn. *)
Lemma poller_step_measure question_id fragments s :
  terminal_last fragments ->
  Inv question_id fragments s ->
  seen_finished s = false ->
  (measure question_id (poller_step question_id s) <= measure question_id s + 1)
  /\ (unpublished (wk s) = [] \/ queue_items question_id s <> [] ->
      seen_finished (poller_step question_id s) = true
      \/ measure question_id (poller_step question_id s)
         < measure question_id s).
Proof.
  intros HT HI Hs.
  pose proof HI as [Hsplit Hflag Hseen Hput Hloop Hraised].
  destruct (pl s) as [|st] eqn:Hp.
  - destruct (reg question_id s) as [q|] eqn:Hq.
    + destruct (poller_step_found question_id s q Hs Hp Hq) as (w' & -> & Hreg).
      unfold measure. rewrite (queue_items_same _ _ _ _ _ _ Hreg), Hp.
      cbn [wk pl phase]. split; [lia | intros _; right; lia].
    + destruct (poller_step_absent question_id s Hs Hp Hq) as (w' & -> & Hreg).
      unfold measure. rewrite (queue_items_same _ _ _ _ _ _ Hreg), Hp.
      cbn [wk pl phase]. split; [lia|].
      intros Hcase. exfalso.
      assert (Hqi : queue_items question_id s = [])
        by (unfold queue_items; now rewrite Hq).
      destruct Hcase as [Hu | Hne]; [|contradiction].
      cbn [in_hand l_finished locals_init] in Hflag. rewrite Hs in Hflag.
      destruct Hflag as [_ Hflag]. unfold ahead in Hflag.
      rewrite Hqi, Hu in Hflag. specialize (Hflag eq_refl). discriminate.
  - destruct (Hloop st eq_refl) as [q Hq].
    assert (Hqi : queue_items question_id s = Queue.items q)
      by (unfold queue_items; now rewrite Hq).
    destruct (Queue.items q) as [|x xs] eqn:Hitems.
    + destruct (poller_step_return question_id s st q Hs Hp Hq Hitems)
        as (w' & -> & Hreg).
      assert (Hqi' : queue_items question_id
                       (mkSystem w' (wk s) P_idle (polled s ++ [answer_of st]))
                     = []).
      { unfold queue_items, reg. cbn [world]. rewrite Hreg.
        destruct (l_finished st).
        - now rewrite lookup_delete_eq.
        - unfold reg in Hq. now rewrite Hq. }
      unfold measure. rewrite Hqi', Hqi, Hp. cbn [wk pl phase length].
      split; [lia|].
      intros [Hu | Hne]; [|contradiction]. left.
      rewrite seen_finished_snoc, Hs. cbn [orb finished answer_of].
      cbn [in_hand] in Hflag. rewrite Hs, orb_false_r in Hflag.
      apply Hflag. unfold ahead. now rewrite Hqi, Hu.
    + destruct Hsplit as (consumed & Hfr & _).
      assert (Hah : ahead question_id s = x :: xs ++ unpublished (wk s)).
      { unfold ahead. now rewrite Hqi. }
      rewrite Hah in Hfr.
      destruct (HT consumed x (xs ++ unpublished (wk s)) Hfr) as [_ Hx].
      destruct (poller_step_pop question_id s st q x xs Hs Hp Hq Hitems Hx)
        as (w' & -> & Hreg).
      unfold measure. rewrite (queue_items_insert _ _ _ _ _ _ _ Hreg), Hqi, Hp.
      cbn [wk pl phase length Queue.items]. split; [lia | intros _; right; lia].
Qed.

(** One turn of each thread. *)
Lemma round_progress question_id fragments s :
  terminal_last fragments ->
  Inv question_id fragments s ->
  seen_finished s = false ->
  seen_finished (poller_step question_id (worker_step question_id s)) = true
  \/ measure question_id (poller_step question_id (worker_step question_id s))
     < measure question_id s.
Proof.
  intros HT HI Hs.
  destruct (worker_step_measure question_id fragments s HI)
    as [[-> Hcase] | [Hm Hpolled]].
  - now apply (poller_step_measure question_id fragments s HT HI Hs).
  - pose proof (worker_step_Inv question_id fragments s HI) as HI'.
    assert (Hs' : seen_finished (worker_step question_id s) = false).
    { unfold seen_finished in *. now rewrite Hpolled. }
    destruct (poller_step_measure question_id fragments _ HT HI' Hs') as [H _].
    right. lia.
Qed.

Lemma round_robin_finishes question_id fragments n s :
  terminal_last fragments ->
  Inv question_id fragments s ->
  measure question_id s < n ->
  exists k, k <= n
    /\ seen_finished (run question_id (round_robin k) s) = true.
Proof.
  intros HT. revert s. induction n as [|n IH]; intros s HI Hn; [lia|].
  destruct (seen_finished s) eqn:Hs.
  - exists 0. split; [lia | exact Hs].
  - destruct (round_progress question_id fragments s HT HI Hs) as [Hdone | Hlt].
    + exists 1. split; [lia | exact Hdone].
    + destruct (IH (poller_step question_id (worker_step question_id s)))
        as (k & Hk & Hrun).
      * apply poller_step_Inv, worker_step_Inv; assumption.
      * lia.
      * exists (S k). split; [lia | exact Hrun].
Qed.

(** A poll that has said [finished] is the last one. *)
Lemma run_seen question_id schedule s :
  seen_finished s = true ->
  polled (run question_id schedule s) = polled s.
Proof.
  revert s. induction schedule as [|t schedule IH]; intros s Hs; [reflexivity|].
  cbn [run fold_left].
  assert (Hp : polled (sys_step question_id s t) = polled s).
  { destruct t; cbn [sys_step polled];
      [|now rewrite poller_step_seen|reflexivity..].
    unfold worker_step.
    destruct (wk s) as [[|a rest]|a rest|e]; try reflexivity.
    - destruct (queue_answer_lookup question_id (world s)) as [[| |] ?];
        reflexivity.
    - destruct (queue_answer_put question_id a (world s)) as [[| |] ?];
        reflexivity. }
  fold (run question_id schedule (sys_step question_id s t)).
  rewrite IH; [exact Hp|]. unfold seen_finished in *. now rewrite Hp.
Qed.

Lemma fragments_text_shape l c :
  Forall (fun a => finished a = false /\ is_Some (text a)) l ->
  finished c = true ->
  fragments_text (l ++ [c]) = concat_text l.
Proof.
  intros Hl Hc. rewrite fragments_text_snoc, Hc, append_nil_r.
  unfold fragments_text. f_equal.
  induction Hl as [|a l [Ha _] _ IH]; [reflexivity|].
  rewrite filter_cons, Ha, IH. reflexivity.
Qed.

(** ** Calls that are not interrupted *)

Lemma Inv_has_text question_id fragments s q :
  terminal_last fragments -> Inv question_id fragments s ->
  reg question_id s = Some q -> Forall has_text (Queue.items q).
Proof.
  intros HT [(consumed & Hfr & _) _ _ _ _ _] Hq.
  unfold ahead, queue_items in Hfr. rewrite Hq in Hfr.
  apply Forall_forall. intros x Hx.
  apply list_elem_of_split in Hx as (l1 & l2 & Hx).
  destruct (HT (consumed ++ l1) x (l2 ++ unpublished (wk s))) as [_ H];
    [|exact H].
  rewrite Hfr, Hx, <- !app_assoc. reflexivity.
Qed.

Lemma worker_step_pl question_id s :
  pl (worker_step question_id s) = pl s.
Proof.
  unfold worker_step. destruct (wk s) as [[|a rest]|a rest|e]; try reflexivity.
  - destruct (queue_answer_lookup question_id (world s)) as [[| |] ?];
      reflexivity.
  - destruct (queue_answer_put question_id a (world s)) as [[| |] ?];
      reflexivity.
Qed.

(** A call that is not interrupted is a run of its steps. *)
Lemma call_step_run question_id fragments s t :
  terminal_last fragments -> Inv question_id fragments s -> pl s = P_idle ->
  foreign question_id t ->
  exists schedule,
    Forall (foreign question_id) schedule
    /\ call_step question_id s t = run question_id schedule s
    /\ pl (call_step question_id s t) = P_idle.
Proof.
  intros HT HI Hp Ht. destruct t as [| |i a|i]; cbn [call_step].
  - destruct (wk s) as [[|a rest]|a rest|e] eqn:Hw.
    + exists []. split; [apply List.Forall_nil|]. split; [reflexivity | exact Hp].
    + exists [Worker; Worker].
      split; [repeat (apply List.Forall_cons; [exact I|]); apply List.Forall_nil|].
      cbn [run fold_left sys_step].
      rewrite (worker_steps_queue_answer _ _ _ _ Hw).
      destruct (queue_answer question_id a (world s)) as [[[]|e|] w'];
        (split; [reflexivity | exact Hp]).
    + exists [Worker].
      split; [repeat (apply List.Forall_cons; [exact I|]); apply List.Forall_nil|].
      split; [reflexivity|]. now rewrite worker_step_pl.
    + exists []. split; [apply List.Forall_nil|]. split; [reflexivity | exact Hp].
  - destruct (seen_finished s) eqn:Hs.
    + exists []. split; [apply List.Forall_nil|]. split; [reflexivity | exact Hp].
    + destruct (poller_steps_pop_answer question_id s Hs Hp)
        as (n & a & w' & Hpop & Hrun).
      { intros q Hq. exact (Inv_has_text _ _ _ _ HT HI Hq). }
      rewrite Hpop. exists (repeat Poller n). split; [|split].
      * apply List.Forall_forall. intros x Hx. apply repeat_spec in Hx.
        subst x. exact I.
      * symmetry. exact Hrun.
      * reflexivity.
  - exists [Publish i a].
    split; [apply List.Forall_cons; [exact Ht | apply List.Forall_nil]|].
    split; [reflexivity | exact Hp].
  - exists [Poll i].
    split; [apply List.Forall_cons; [exact Ht | apply List.Forall_nil]|].
    split; [reflexivity | exact Hp].
Qed.

Lemma run_calls_run question_id fragments calls :
  terminal_last fragments -> Forall (foreign question_id) calls ->
  forall s,
    Inv question_id fragments s -> pl s = P_idle ->
    exists schedule,
      Forall (foreign question_id) schedule
      /\ run_calls question_id calls s = run question_id schedule s.
Proof.
  intros HT Hf. induction Hf as [|t calls Ht _ IH]; intros s HI Hp.
  - exists []. split; [apply List.Forall_nil | reflexivity].
  - destruct (call_step_run question_id fragments s t HT HI Hp Ht)
      as (sch1 & Hf1 & Hstep & Hp1).
    destruct (IH (call_step question_id s t)) as (sch2 & Hf2 & Hrun).
    + rewrite Hstep. now apply run_Inv.
    + exact Hp1.
    + exists (sch1 ++ sch2). split; [apply Forall_app; split; assumption|].
      cbn [run_calls fold_left].
      fold (run_calls question_id calls (call_step question_id s t)).
      rewrite Hrun, Hstep. unfold run. now rewrite fold_left_app.
Qed.

(** C1. The worker of a question publishes the fragments [l], none of
    them terminal and each with text, and then the terminal fragment [c];
    the caller polls until a poll returns [finished].  Whatever the
    schedule of the two threads, down to the single [get] of a poll and
    the [put] of a publish, and whatever is published and polled for other
    questions in between, once a poll has returned [finished] the texts of
    the answers, put together in the order of the polls, are the texts of
    [l] in the order of publishing, each once.  And the polling does end:
    from wherever a schedule has led, turns taken in alternation lead to a
    poll that returns [finished].

    The steps of the schedule are the steps of the two calls.  Wherever a
    schedule has led, the two steps of the worker on its next fragment,
    taken together, are the call of [queue_answer] on that fragment: they
    end in the world the call ends in, with the fragment published, or
    with the worker waiting at the [put] where the call waits.  And the
    steps of a poll, taken together, are the call of [pop_answer]: they
    end in the world the call ends in, and what they add to the answers
    of the polls is the answer the call returns.

    So the same holds when every turn is a whole call: for any sequence of
    calls of [queue_answer] on the fragments in order and of calls of
    [pop_answer], with calls for other questions in between, once a call
    of [pop_answer] has returned [finished] the texts of the answers of
    the calls are the texts of [l], in order, each once. *)
Theorem polls_return_all_text_once question_id w l c schedule :
  answer_queues (bot w) !! question_id = None ->
  Forall (fun a => finished a = false /\ is_Some (text a)) l ->
  finished c = true ->
  Forall (foreign question_id) schedule ->
  let s := run question_id schedule (system_init w (l ++ [c])) in
  (seen_finished s = true ->
   concat_text (polled s) = fragments_text (l ++ [c])
   /\ fragments_text (l ++ [c]) = concat_text l)
  /\ (exists k,
        seen_finished
          (run question_id (schedule ++ round_robin k)
             (system_init w (l ++ [c]))) = true)
  /\ (forall a rest,
        wk s = W_next (a :: rest) ->
        run question_id [Worker; Worker] s =
        match queue_answer question_id a (world s) with
        | (Ret _, w') => mkSystem w' (W_next rest) (pl s) (polled s)
        | (Raise e, w') => mkSystem w' (W_raised e) (pl s) (polled s)
        | (Block, w') => mkSystem w' (W_put a rest) (pl s) (polled s)
        end)
  /\ (seen_finished s = false -> pl s = P_idle ->
      exists n a w',
        pop_answer question_id (world s) = (Ret a, w')
        /\ run question_id (repeat Poller n) s
           = mkSystem w' (wk s) P_idle (polled s ++ [a]))
  /\ (forall calls,
        Forall (foreign question_id) calls ->
        seen_finished
          (run_calls question_id calls (system_init w (l ++ [c]))) = true ->
        concat_text
          (polled (run_calls question_id calls (system_init w (l ++ [c]))))
        = concat_text l).
Proof.
  intros Hq Hl Hc Hf s.
  pose proof (terminal_last_shape l c Hl Hc) as HT.
  assert (H0 : Inv question_id (l ++ [c]) (system_init w (l ++ [c]))).
  { apply Inv_init; [exact Hq|].
    intros H. apply app_eq_nil in H as [_ H]. discriminate. }
  assert (HI : Inv question_id (l ++ [c]) s).
  { apply run_Inv; [exact HT | exact Hf | exact H0]. }
  split; [|split; [|split; [|split]]].
  - intros Hs. split; [now apply (Inv_finished question_id) |
                       now apply fragments_text_shape].
  - destruct (round_robin_finishes question_id (l ++ [c])
                (S (measure question_id s)) _ HT HI) as (k & _ & Hk); [lia|].
    exists k. unfold s, run in *. now rewrite fold_left_app.
  - intros a rest Hw. cbn [run fold_left sys_step].
    exact (worker_steps_queue_answer question_id s a rest Hw).
  - intros Hs Hp. apply (poller_steps_pop_answer question_id s Hs Hp).
    intros q Hreg. exact (Inv_has_text _ _ _ _ HT HI Hreg).
  - intros calls Hcalls Hseen.
    destruct (run_calls_run question_id (l ++ [c]) calls HT Hcalls
                (system_init w (l ++ [c])) H0 eq_refl) as (sch & Hsch & Hrun).
    rewrite Hrun in *.
    rewrite (Inv_finished question_id (l ++ [c])).
    + now apply fragments_text_shape.
    + apply run_Inv; [exact HT | exact Hsch | exact H0].
    + exact Hseen.
Qed.

(** Three fragments and the terminal one: a schedule that cuts the calls,
    with calls for another question in between, and a sequence of whole
    calls in which the polls find nothing, one fragment, two fragments and
    the terminal one.  Either way the caller has ["abc"]. *)
Lemma polls_return_all_text_once_witness :
  concat_text
    (polled
       (run "q"
          [Poller; Worker; Publish "r" (fragment "z"); Poller; Worker; Worker;
           Poller; Worker; Worker; Poll "r"; Poller; Poller; Worker; Worker;
           Worker; Poller; Poller; Poller; Poller; Poller]
          (system_init (World_init 4)
             ([fragment "a"; fragment "b"; fragment "c"] ++ [terminal]))))
  = "abc"
  /\ concat_text
       (polled
          (run_calls "q"
             [Poller; Worker; Poller; Publish "r" (fragment "z"); Worker;
              Worker; Poller; Poll "r"; Worker; Poller]
             (system_init (World_init 4)
                ([fragment "a"; fragment "b"; fragment "c"] ++ [terminal]))))
     = "abc".
Proof.
  destruct (polls_return_all_text_once "q" (World_init 4)
              [fragment "a"; fragment "b"; fragment "c"] terminal
              [Poller; Worker; Publish "r" (fragment "z"); Poller; Worker;
               Worker; Poller; Worker; Worker; Poll "r"; Poller; Poller;
               Worker; Worker; Worker; Poller; Poller; Poller; Poller; Poller])
    as (H & _ & _ & _ & Hcalls).
  - reflexivity.
  - repeat (apply List.Forall_cons; [split; [reflexivity | now eexists]|]).
    apply List.Forall_nil.
  - reflexivity.
  - repeat (apply List.Forall_cons; [cbn; first [exact I | discriminate]|]).
    apply List.Forall_nil.
  - split.
    + destruct H as [H1 H2]; [vm_compute; reflexivity|].
      rewrite H1, H2. reflexivity.
    + rewrite (Hcalls [Poller; Worker; Poller; Publish "r" (fragment "z");
                       Worker; Worker; Poller; Poll "r"; Worker; Poller]).
      * reflexivity.
      * repeat (apply List.Forall_cons;
                [cbn; first [exact I | discriminate]|]).
        apply List.Forall_nil.
      * vm_compute. reflexivity.
Defined.

(** * Further properties of the code *)

(** ** The lock, missing text, empty buffers *)

Lemma pop_answer_lock question_id w :
  answer_queues_lock (bot (snd (pop_answer question_id w))) = false.
Proof.
  unfold pop_answer, mbind, M_bind, bind. rewrite pop_answer_lookup_run.
  destruct (answer_queues (bot w) !! question_id) as [q|].
  - unfold pop_answer_loop.
    pose proof (drain_bot (Queue.items q) locals_init (set_bot (with_lock false) w))
      as [Hb _].
    destruct (drain (Queue.items q) locals_init (set_bot (with_lock false) w))
      as [rest [r w1]]. cbn [fst snd] in *.
    destruct w1 as [b1 u1 l1]. cbn [bot] in Hb. subst b1.
    destruct w as [[] ? ?].
    destruct r as [st|e|]; cbn [snd set_bot bot]; [|reflexivity..].
    unfold pop_answer_return. run_m. destruct (l_finished st); reflexivity.
  - destruct w as [[] ? ?]. reflexivity.
Qed.

(** X1. Neither [queue_answer] nor [pop_answer] ends with the registry
    lock held, whatever the state of the lock before and however the call
    ends: the publisher that waits at a full buffer waits without the
    lock, and so does not keep the other questions from the registry. *)
Theorem registry_lock_released question_id a w :
  answer_queues_lock (bot (snd (queue_answer question_id a w))) = false
  /\ answer_queues_lock (bot (snd (pop_answer question_id w))) = false.
Proof.
  split; [|apply pop_answer_lock].
  rewrite queue_answer_run.
  destruct (Queue.put a (target question_id (bot w)));
    destruct w as [[] ? ?]; reflexivity.
Qed.

Lemma drain_raises pre x post st w :
  Forall has_text pre -> finished x = false -> text x = None ->
  exists w',
    drain (pre ++ x :: post) st w = (post, (Raise TypeError, w'))
    /\ bot w' = bot w.
Proof.
  intros Hpre Hx Ht. revert st w.
  induction Hpre as [|a pre Ha _ IH]; intros st w.
  - cbn [app drain]. unfold pop_answer_body. run_m. rewrite Hx, Ht.
    eexists. split; reflexivity.
  - cbn [app drain]. rewrite pop_answer_body_run by exact Ha.
    destruct (IH (absorb st a) (log_pop w)) as (w' & -> & Hb).
    exists w'. split; [reflexivity | exact Hb].
Qed.

(** X2. A poll that comes to a fragment that is not terminal and has no
    text raises [TypeError]: the fragments before it and the fragment
    itself are gone from the buffer, their text is returned to nobody, and
    the fragments behind it stay for the next poll. *)
Theorem pop_answer_raises_on_missing_text question_id w q pre x post :
  answer_queues (bot w) !! question_id = Some q ->
  Queue.items q = pre ++ x :: post ->
  Forall has_text pre ->
  finished x = false ->
  text x = None ->
  exists w',
    pop_answer question_id w = (Raise TypeError, w')
    /\ answer_queues (bot w') !! question_id
       = Some (Queue.Make (Queue.maxsize q) post).
Proof.
  intros Hq Hitems Hpre Hx Ht.
  unfold pop_answer, mbind, M_bind, bind.
  rewrite pop_answer_lookup_run, Hq. unfold pop_answer_loop. rewrite Hitems.
  destruct (drain_raises pre x post locals_init (set_bot (with_lock false) w)
              Hpre Hx Ht) as (w1 & -> & Hb).
  eexists. split; [reflexivity|].
  destruct w1 as [b1 ? ?]. cbn [bot set_bot] in *. subst b1.
  destruct w as [[] ? ?]. cbn. apply lookup_insert_eq.
Qed.

Lemma pop_answer_raises_on_missing_text_witness :
  exists w',
    pop_answer "q" (published_world [fragment "a"; textless; fragment "b"])
    = (Raise TypeError, w')
    /\ answer_queues (bot w') !! "q" = Some (Queue.Make 64 [fragment "b"]).
Proof.
  apply (pop_answer_raises_on_missing_text "q"
           (published_world [fragment "a"; textless; fragment "b"])
           (Queue.Make 64 [fragment "a"; textless; fragment "b"])
           [fragment "a"] textless [fragment "b"]).
  - vm_compute. reflexivity.
  - reflexivity.
  - all_have_text.
  - reflexivity.
  - reflexivity.
Defined.

Lemma drain_ret l st w rest st' w' :
  drain l st w = (rest, (Ret st', w')) -> rest = [].
Proof.
  revert st w. induction l as [|a l IH]; intros st w; cbn [drain].
  - now intros [= <- _ _].
  - destruct (pop_answer_body a st w) as [[st1|e|] w1]; [apply IH|discriminate..].
Qed.

(** A poll that returns without [finished] leaves the buffer registered
    and empty. *)
Lemma pop_answer_unfinished question_id w q a w1 :
  answer_queues (bot w) !! question_id = Some q ->
  pop_answer question_id w = (Ret a, w1) ->
  finished a = false ->
  answer_queues (bot w1) !! question_id = Some (Queue.Make (Queue.maxsize q) []).
Proof.
  intros Hq. unfold pop_answer, mbind, M_bind, bind.
  rewrite pop_answer_lookup_run, Hq. unfold pop_answer_loop.
  pose proof (drain_bot (Queue.items q) locals_init (set_bot (with_lock false) w))
    as [Hb _].
  destruct (drain (Queue.items q) locals_init (set_bot (with_lock false) w))
    as [rest [r w0]] eqn:Hd. cbn [snd] in Hb.
  destruct r as [st|e|]; [|discriminate..].
  apply drain_ret in Hd. subst rest.
  unfold pop_answer_return. run_m.
  destruct (l_finished st) eqn:Hf; intros H Ha; inversion H; subst; clear H.
  - cbn in Ha. congruence.
  - cbn. apply lookup_insert_eq.
Qed.

(** X3. A poll of a buffer that is registered and empty returns the empty
    string as text (not the absent text of an unknown id), no ids and
    [finished] false, and leaves the buffer registered.  So the poll that
    follows a poll without [finished], with no publish in between, returns
    this answer: no text is returned twice, and the ids are not repeated
    either. *)
Theorem poll_of_empty_buffer question_id w q :
  answer_queues (bot w) !! question_id = Some q ->
  (Queue.items q = [] ->
   exists w',
     pop_answer question_id w = (Ret empty_answer, w')
     /\ answer_queues (bot w') !! question_id = Some q)
  /\ (forall a w1,
        pop_answer question_id w = (Ret a, w1) ->
        finished a = false ->
        exists w2,
          pop_answer question_id w1 = (Ret empty_answer, w2)
          /\ answer_queues (bot w2) !! question_id
             = Some (Queue.Make (Queue.maxsize q) [])).
Proof.
  intros Hq.
  assert (Hempty : forall w0 q0,
            answer_queues (bot w0) !! question_id = Some q0 ->
            Queue.items q0 = [] ->
            exists w',
              pop_answer question_id w0 = (Ret empty_answer, w')
              /\ answer_queues (bot w') !! question_id = Some q0).
  { intros w0 q0 Hq0 Hitems.
    destruct (pop_answer_present_run question_id w0 q0 Hq0) as (w' & Hrun & Hreg & _).
    { rewrite Hitems. apply List.Forall_nil. }
    rewrite Hitems in Hrun, Hreg. exists w'. split; [exact Hrun|].
    rewrite Hreg. cbn. rewrite lookup_insert_eq, <- Hitems. now rewrite queue_eta. }
  split; [now apply Hempty|].
  intros a w1 Hrun Ha.
  pose proof (pop_answer_unfinished _ _ _ _ _ Hq Hrun Ha) as Hq1.
  apply (Hempty w1 _ Hq1). reflexivity.
Qed.

Lemma poll_of_empty_buffer_witness :
  exists w2,
    pop_answer "q" (snd (pop_answer "q" (published_world [fragment "a"])))
    = (Ret empty_answer, w2)
    /\ answer_queues (bot w2) !! "q" = Some (Queue.Make 64 []).
Proof.
  destruct (poll_of_empty_buffer "q" (published_world [fragment "a"])
              (Queue.Make 64 [fragment "a"])) as [_ H].
  - vm_compute. reflexivity.
  - apply (H (aggregate [fragment "a"])
             (snd (pop_answer "q" (published_world [fragment "a"])))).
    + vm_compute. reflexivity.
    + reflexivity.
Defined.

Lemma strip_finished a : finished (strip a) = finished a.
Proof. unfold strip. destruct (finished a) eqn:E; [reflexivity | exact E]. Qed.

Lemma filter_strip l :
  filter (fun a => finished a = false) (map strip l)
  = filter (fun a => finished a = false) l.
Proof.
  induction l as [|a l IH]; [reflexivity|].
  cbn [map]. rewrite !filter_cons, strip_finished, IH.
  unfold strip. destruct (finished a) eqn:E; [reflexivity|].
  destruct (decide (false = false)); reflexivity.
Qed.

Lemma aggregate_strip l : aggregate (map strip l) = aggregate l.
Proof.
  unfold aggregate, fragments_text, last_ids, last_finished.
  rewrite filter_strip. f_equal.
  change (map strip l) with (strip <$> l). rewrite fmap_last.
  destruct (last l) as [a|]; [apply strip_finished | reflexivity].
Qed.

Lemma has_text_strip l : Forall has_text l -> Forall has_text (map strip l).
Proof.
  induction 1 as [|a l Ha _ IH]; [apply List.Forall_nil|].
  cbn [map]. apply List.Forall_cons; [|exact IH].
  unfold strip. destruct (finished a) eqn:E; [|exact Ha].
  intros H. discriminate.
Qed.

(** X4. The answer of a poll does not depend on the text and the ids of
    the terminal fragments it pops: the ids that a normal completion puts
    on the terminal fragment reach the caller only through the fragments
    before it.  A poll that finds the terminal fragment alone returns
    [finished] with the empty text and without ids, whatever the fragment
    carries. *)
Theorem poll_ignores_terminal_payload question_id w q :
  answer_queues (bot w) !! question_id = Some q ->
  Forall has_text (Queue.items q) ->
  (forall w2 q2,
     answer_queues (bot w2) !! question_id = Some q2 ->
     Queue.items q2 = map strip (Queue.items q) ->
     fst (pop_answer question_id w2) = fst (pop_answer question_id w))
  /\ (forall c,
        Queue.items q = [c] -> finished c = true ->
        fst (pop_answer question_id w)
        = Ret {| text := Some ""; conversation_id := None; parent_id := None;
                 finished := true |}).
Proof.
  intros Hq Hl.
  destruct (pop_answer_present_run question_id w q Hq Hl) as (w' & Hrun & _).
  split.
  - intros w2 q2 Hq2 Hitems.
    destruct (pop_answer_present_run question_id w2 q2 Hq2) as (w2' & Hrun2 & _).
    { rewrite Hitems. now apply has_text_strip. }
    rewrite Hrun, Hrun2, Hitems, aggregate_strip. reflexivity.
  - intros c Hitems Hc. rewrite Hrun, Hitems. cbn [fst]. f_equal.
    unfold aggregate, fragments_text, last_ids, last_finished.
    rewrite filter_cons, Hc. cbn. now rewrite Hc.
Qed.

Lemma poll_ignores_terminal_payload_witness :
  fst (pop_answer "q" (published_world [terminal]))
  = Ret {| text := Some ""; conversation_id := None; parent_id := None;
           finished := true |}.
Proof.
  destruct (poll_ignores_terminal_payload "q" (published_world [terminal])
              (Queue.Make 64 [terminal])) as [_ H].
  - vm_compute. reflexivity.
  - all_have_text.
  - apply (H terminal); reflexivity.
Defined.

(** ** The questions do not touch one another *)

Lemma publish_all_outcome question_id l w :
  fst (publish_all question_id l w) = Ret tt
  \/ fst (publish_all question_id l w) = Block.
Proof.
  revert w. induction l as [|a l IH]; intros w; [left; reflexivity|].
  cbn [publish_all]. unfold mbind, M_bind, bind.
  pose proof (queue_answer_run question_id a w) as Hrun.
  destruct (queue_answer question_id a w) as [[[]|e|] w'].
  - apply IH.
  - destruct (Queue.put a _) in Hrun; discriminate.
  - right. reflexivity.
Qed.

Lemma publish_all_foreign question_id i l w :
  i <> question_id ->
  answer_queues (bot (snd (publish_all i l w))) !! question_id
  = answer_queues (bot w) !! question_id.
Proof.
  intros Hi. revert w. induction l as [|a l IH]; intros w; [reflexivity|].
  cbn [publish_all]. unfold mbind, M_bind, bind.
  pose proof (queue_answer_foreign question_id i a w Hi) as H.
  destruct (queue_answer i a w) as [[[]|e|] w']; cbn [snd] in *;
    [rewrite IH|..]; exact H.
Qed.

Lemma start_answering_foreign (chatbot : Chatbot) w question q' j :
  Queue.get (question_queue (bot w)) = Some (question, q') ->
  question_id question <> j ->
  answer_queues (bot (snd (start_answering chatbot w))) !! j
  = answer_queues (bot w) !! j.
Proof.
  intros Hget Hj.
  destruct (Chatbot_new chatbot (access_token (bot w))) as [msg|] eqn:Hnew.
  - rewrite (start_answering_refused _ _ _ _ _ Hget Hnew).
    destruct w as [[] ? ?]. reflexivity.
  - destruct (start_answering_publishes chatbot w question q' Hget Hnew)
      as [_ [Hb _]].
    rewrite Hb, publish_all_foreign by exact Hj.
    destruct w as [[] ? ?]. reflexivity.
Qed.

(** X5. What is published, polled or answered for one question leaves the
    buffers of all the other questions as they are. *)
Theorem other_buffers_untouched i j a (chatbot : Chatbot) w :
  i <> j ->
  answer_queues (bot (snd (queue_answer i a w))) !! j
  = answer_queues (bot w) !! j
  /\ answer_queues (bot (snd (pop_answer i w))) !! j
     = answer_queues (bot w) !! j
  /\ (forall question q',
        Queue.get (question_queue (bot w)) = Some (question, q') ->
        question_id question = i ->
        answer_queues (bot (snd (start_answering chatbot w))) !! j
        = answer_queues (bot w) !! j).
Proof.
  intros Hij. split; [now apply queue_answer_foreign|].
  split; [now apply pop_answer_foreign|].
  intros question q' Hget Hi.
  apply (start_answering_foreign chatbot w question q' j Hget). congruence.
Qed.

Lemma other_buffers_untouched_witness :
  answer_queues
    (bot (snd (queue_answer "r" terminal (published_world [fragment "a"]))))
    !! "q"
  = answer_queues (bot (published_world [fragment "a"])) !! "q"
  /\ answer_queues
       (bot (snd (pop_answer "r" (published_world [fragment "a"])))) !! "q"
     = answer_queues (bot (published_world [fragment "a"])) !! "q".
Proof.
  destruct (other_buffers_untouched "r" "q" terminal silent_chatbot
              (published_world [fragment "a"])) as (H1 & H2 & _).
  - discriminate.
  - split; [exact H1 | exact H2].
Defined.

(** ** What the worker raises *)

(** The outcomes of [start_answering], by what is in the question queue
    and by what the constructor of the adapter does. *)
Lemma start_answering_cases (chatbot : Chatbot) w :
  match Queue.get (question_queue (bot w)) with
  | None =>
      start_answering chatbot w = (Raise Empty, w)
      /\ worker_turn chatbot w = (Ret tt, w)
  | Some (_, q') =>
      match Chatbot_new chatbot (access_token (bot w)) with
      | Some msg =>
          start_answering chatbot w =
          (Raise (AdapterFailure msg), set_bot (with_question_queue q') w)
      | None =>
          fst (start_answering chatbot w) = Ret tt
          \/ fst (start_answering chatbot w) = Block
      end
  end.
Proof.
  destruct (Queue.get (question_queue (bot w))) as [[question q']|] eqn:Hget.
  - destruct (Chatbot_new chatbot (access_token (bot w))) as [msg|] eqn:Hnew.
    + exact (start_answering_refused _ _ _ _ _ Hget Hnew).
    + destruct (start_answering_publishes chatbot w question q' Hget Hnew)
        as [-> _].
      apply publish_all_outcome.
  - assert (H : start_answering chatbot w = (Raise Empty, w)).
    { unfold start_answering, question_queue_get, mbind, M_bind, bind, gets.
      now rewrite Hget. }
    split; [exact H|]. unfold worker_turn, try_except. now rewrite H.
Qed.


Lemma worker_turn_outcome (chatbot : Chatbot) w :
  fst (worker_turn chatbot w) = Ret tt \/ fst (worker_turn chatbot w) = Block.
Proof.
  unfold worker_turn, try_except.
  destruct (start_answering chatbot w) as [[[]|e|] w'].
  - left. reflexivity.
  - left. destruct e; reflexivity.
  - right. reflexivity.
Qed.

Lemma worker_loop_outcome (chatbot : Chatbot) turns w :
  match fst (worker_loop chatbot turns w) with
  | Raise _ => False
  | _ => True
  end.
Proof.
  revert w. induction turns as [|n IH]; intros w; [exact I|].
  cbn [worker_loop]. unfold bind at 1, is_working, gets.
  destruct (working (bot w)); [|exact I].
  unfold bind. destruct (worker_turn_outcome chatbot w) as [H | H];
    destruct (worker_turn chatbot w) as [[[]|e|] w']; cbn [fst] in H;
    try discriminate.
  - apply IH.
  - exact I.
Qed.

(** X6. A worker thread does not die of an exception: whatever the
    adapter does and however many turns of the loop are looked at,
    [worker_thread_function] has ended, is still in its loop, or waits at
    a full buffer. *)
Theorem worker_thread_never_raises (chatbot : Chatbot) turns w :
  fst (worker_thread_function chatbot turns w) = Ret true
  \/ fst (worker_thread_function chatbot turns w) = Ret false
  \/ fst (worker_thread_function chatbot turns w) = Block.
Proof.
  unfold worker_thread_function, mbind, M_bind, bind, logger.
  match goal with
  | |- context [worker_loop chatbot turns ?w0] =>
      pose proof (worker_loop_outcome chatbot turns w0) as H;
      destruct (worker_loop chatbot turns w0) as [[[|]|e|] w'];
      cbn [fst] in H
  end.
  - left. reflexivity.
  - right. left. reflexivity.
  - destruct H.
  - right. right. reflexivity.
Qed.


(** ** What a worker leaves alone *)

Lemma publish_all_blind {X} (f : Bot -> X) question_id l w :
  registry_blind f ->
  f (bot (snd (publish_all question_id l w))) = f (bot w).
Proof.
  intros Hf. revert w. induction l as [|a l IH]; intros w; [reflexivity|].
  cbn [publish_all]. unfold mbind, M_bind, bind.
  pose proof (queue_answer_run question_id a w) as Hrun.
  destruct (queue_answer question_id a w) as [r w'].
  assert (Hw : f (bot w') = f (bot w)).
  { destruct (Queue.put a _) in Hrun; injection Hrun as _ ->;
      destruct w as [b ? ?]; apply Hf. }
  destruct r as [[]|e|]; cbn [snd]; [rewrite IH|..]; exact Hw.
Qed.

(** [start_answering] changes nothing in the bot but the question queue,
    the registry and its lock. *)
Lemma start_answering_blind {X} (f : Bot -> X) (chatbot : Chatbot) w question
    q' :
  registry_blind f ->
  Queue.get (question_queue (bot w)) = Some (question, q') ->
  f (bot (snd (start_answering chatbot w)))
  = f (with_question_queue q' (bot w)).
Proof.
  intros Hf Hget.
  destruct (Chatbot_new chatbot (access_token (bot w))) as [msg|] eqn:Hnew.
  - rewrite (start_answering_refused _ _ _ _ _ Hget Hnew).
    destruct w; reflexivity.
  - destruct (start_answering_publishes chatbot w question q' Hget Hnew)
      as [_ [Hb _]].
    rewrite Hb, publish_all_blind by exact Hf. destruct w; reflexivity.
Qed.

(** A turn of the worker whose adapter cannot be constructed: the
    exception is caught in [worker_thread_function] and logged; the
    question is off the queue and nothing is published. *)
Lemma worker_turn_refused (chatbot : Chatbot) w question q' msg :
  Queue.get (question_queue (bot w)) = Some (question, q') ->
  Chatbot_new chatbot (access_token (bot w)) = Some msg ->
  worker_turn chatbot w =
  (Ret tt,
   {| bot := with_question_queue q' (bot w); uuid_draws := uuid_draws w;
      log := log w ++ [(ERROR, "%s")] |}).
Proof.
  intros Hget Hnew. unfold worker_turn, try_except.
  rewrite (start_answering_refused _ _ _ _ _ Hget Hnew). reflexivity.
Qed.

(** X7. What [start_answering] raises.  On an empty question queue it
    raises [queue.Empty] and leaves everything as it is; [worker_turn]
    passes over it.  With a question taken off the queue, what the
    constructor of the adapter raises leaves [start_answering]: the
    question is off the queue, no buffer is registered or changed and
    nothing is published for the question, so that its polls never see
    [finished]; [worker_turn] logs the exception and returns.  When the
    constructor returns, the call returns or waits at a full buffer,
    whatever the adapter raises while it streams, and the question is off
    the queue. *)
Theorem start_answering_exceptions (chatbot : Chatbot) w :
  match Queue.get (question_queue (bot w)) with
  | None =>
      start_answering chatbot w = (Raise Empty, w)
      /\ worker_turn chatbot w = (Ret tt, w)
  | Some (question, q') =>
      match Chatbot_new chatbot (access_token (bot w)) with
      | Some msg =>
          start_answering chatbot w =
          (Raise (AdapterFailure msg), set_bot (with_question_queue q') w)
          /\ answer_queues (bot (snd (start_answering chatbot w)))
             = answer_queues (bot w)
          /\ worker_turn chatbot w =
             (Ret tt,
              {| bot := with_question_queue q' (bot w);
                 uuid_draws := uuid_draws w;
                 log := log w ++ [(ERROR, "%s")] |})
          /\ (answer_queues (bot w) !! question_id question = None ->
              fst (pop_answer (question_id question)
                     (snd (worker_turn chatbot w)))
              = Ret no_buffer_answer)
      | None =>
          (fst (start_answering chatbot w) = Ret tt
           \/ fst (start_answering chatbot w) = Block)
          /\ question_queue (bot (snd (start_answering chatbot w))) = q'
      end
  end.
Proof.
  pose proof (start_answering_cases chatbot w) as H.
  destruct (Queue.get (question_queue (bot w))) as [[question q']|] eqn:Hget;
    [|exact H].
  destruct (Chatbot_new chatbot (access_token (bot w))) as [msg|] eqn:Hnew.
  - split; [exact H|]. split; [rewrite H; destruct w as [[] ? ?]; reflexivity|].
    pose proof (worker_turn_refused chatbot w question q' msg Hget Hnew) as Ht.
    split; [exact Ht|].
    intros Hq. rewrite Ht. cbn [snd].
    rewrite pop_answer_absent_run; [reflexivity|].
    destruct w as [[] ? ?]. exact Hq.
  - split; [exact H|].
    rewrite (start_answering_blind question_queue chatbot w question q'
               (fun _ _ _ => eq_refl) Hget).
    reflexivity.
Qed.

(** The constructor raises on the question ["0"]: the exception leaves
    [start_answering] with the question off the queue, the worker logs it,
    and the poll of ["0"] gets the answer of an unknown identifier. *)
Lemma start_answering_exceptions_witness :
  start_answering refusing_chatbot hello_world =
  (Raise (AdapterFailure "invalid access token"),
   set_bot (with_question_queue (Queue.Make 0 [])) hello_world)
  /\ Queue.items (question_queue (bot hello_world))
     = [ {| q_text := "hello"; q_conversation_id := None;
            q_parent_id := None; question_id := "0" |} ]
  /\ answer_queues (bot (snd (start_answering refusing_chatbot hello_world)))
     = answer_queues (bot hello_world)
  /\ fst (pop_answer "0" (snd (worker_turn refusing_chatbot hello_world)))
     = Ret no_buffer_answer.
Proof.
  assert (H : start_answering refusing_chatbot hello_world =
              (Raise (AdapterFailure "invalid access token"),
               set_bot (with_question_queue (Queue.Make 0 [])) hello_world)
              /\ answer_queues
                   (bot (snd (start_answering refusing_chatbot hello_world)))
                 = answer_queues (bot hello_world)
              /\ worker_turn refusing_chatbot hello_world =
                 (Ret tt,
                  {| bot := with_question_queue (Queue.Make 0 [])
                              (bot hello_world);
                     uuid_draws := uuid_draws hello_world;
                     log := log hello_world ++ [(ERROR, "%s")] |})
              /\ (answer_queues (bot hello_world) !! "0" = None ->
                  fst (pop_answer "0"
                         (snd (worker_turn refusing_chatbot hello_world)))
                  = Ret no_buffer_answer))
    by exact (start_answering_exceptions refusing_chatbot hello_world).
  destruct H as (H1 & H2 & _ & H4).
  split; [exact H1|]. split; [reflexivity|]. split; [exact H2|].
  apply H4. reflexivity.
Defined.

Lemma worker_turn_start_answering (chatbot : Chatbot) w question q' :
  Queue.get (question_queue (bot w)) = Some (question, q') ->
  Chatbot_new chatbot (access_token (bot w)) = None ->
  worker_turn chatbot w = start_answering chatbot w.
Proof.
  intros Hget Hnew. pose proof (start_answering_cases chatbot w) as H.
  rewrite Hget, Hnew in H. unfold worker_turn, try_except.
  destruct (start_answering chatbot w) as [[[]|e|] w']; cbn [fst] in H;
    [reflexivity | destruct H; discriminate | reflexivity].
Qed.

Lemma worker_turn_working (chatbot : Chatbot) w :
  working (bot (snd (worker_turn chatbot w))) = working (bot w).
Proof.
  pose proof (start_answering_cases chatbot w) as H.
  destruct (Queue.get (question_queue (bot w))) as [[question q']|] eqn:Hget.
  - destruct (Chatbot_new chatbot (access_token (bot w))) as [msg|] eqn:Hnew.
    + rewrite (worker_turn_refused _ _ _ _ _ Hget Hnew). reflexivity.
    + rewrite (worker_turn_start_answering _ _ _ _ Hget Hnew).
      rewrite (start_answering_blind working _ _ _ _ (fun _ _ _ => eq_refl) Hget).
      reflexivity.
  - destruct H as [_ ->]. reflexivity.
Qed.

(** X8. The flag of the bot alone decides when a worker thread ends.
    While it is set the thread does not leave its loop, however many turns
    are looked at and whatever the adapter does: it is still in the loop
    or waits at a full buffer, and the flag is still set.  After [stop]
    the thread leaves the loop at its next test of the flag: it takes no
    question, also when questions are waiting, and publishes nothing; all
    it does is log that it has started and stopped. *)
Theorem working_worker_keeps_running (chatbot : Chatbot) turns w :
  working (bot w) = true ->
  (fst (worker_thread_function chatbot turns w) = Ret false
   \/ fst (worker_thread_function chatbot turns w) = Block)
  /\ working (bot (snd (worker_thread_function chatbot turns w))) = true
  /\ worker_thread_function chatbot (S turns) (snd (stop w))
     = (Ret true,
        {| bot := with_working false (bot w);
           uuid_draws := uuid_draws w;
           log := (log w ++ [(INFO, "a worker thread started")])
                  ++ [(INFO, "a worker thread stopped")] |}).
Proof.
  intros Hw.
  assert (Hstop : worker_thread_function chatbot (S turns) (snd (stop w))
     = (Ret true,
        {| bot := with_working false (bot w);
           uuid_draws := uuid_draws w;
           log := (log w ++ [(INFO, "a worker thread started")])
                  ++ [(INFO, "a worker thread stopped")] |}))
    by (destruct w as [[] ? ?]; reflexivity).
  cut ((fst (worker_thread_function chatbot turns w) = Ret false
        \/ fst (worker_thread_function chatbot turns w) = Block)
       /\ working (bot (snd (worker_thread_function chatbot turns w))) = true).
  { intros [H1 H2]. split; [exact H1 | split; [exact H2 | exact Hstop]]. }
  clear Hstop.
  assert (Hloop : forall n w0, working (bot w0) = true ->
            (fst (worker_loop chatbot n w0) = Ret false
             \/ fst (worker_loop chatbot n w0) = Block)
            /\ working (bot (snd (worker_loop chatbot n w0))) = true).
  { induction n as [|n IH]; intros w0 Hw0; [split; [left; reflexivity | exact Hw0]|].
    cbn [worker_loop]. unfold bind, is_working, gets. rewrite Hw0.
    pose proof (worker_turn_working chatbot w0) as Hk.
    pose proof (worker_turn_outcome chatbot w0) as Ho.
    destruct (worker_turn chatbot w0) as [[[]|e|] w1]; cbn [fst snd] in *.
    - apply IH. congruence.
    - destruct Ho; discriminate.
    - split; [right; reflexivity | congruence]. }
  unfold worker_thread_function, mbind, M_bind, bind, logger.
  match goal with
  | |- context [worker_loop chatbot turns ?w0] =>
      destruct (Hloop turns w0 Hw) as [Ho Hk];
      destruct (worker_loop chatbot turns w0) as [[[|]|e|] w']; cbn [fst snd] in *
  end.
  - destruct Ho; discriminate.
  - split; [left; reflexivity | exact Hk].
  - destruct Ho; discriminate.
  - split; [right; reflexivity | exact Hk].
Qed.

Lemma working_worker_keeps_running_witness :
  (fst (worker_thread_function hello_chatbot 3 hello_world) = Ret false
   \/ fst (worker_thread_function hello_chatbot 3 hello_world) = Block)
  /\ working (bot (snd (worker_thread_function hello_chatbot 3 hello_world)))
     = true.
Proof.
  destruct (working_worker_keeps_running hello_chatbot 3 hello_world eq_refl)
    as (H1 & H2 & _).
  split; [exact H1 | exact H2].
Defined.

(** ** A worker without a poller *)

Lemma publish_all_fills question_id b l1 a l2 w :
  0 < Queue.maxsize (target question_id (bot w)) ->
  length (Queue.items (target question_id (bot w))) + S (length l1)
  = Queue.maxsize (target question_id (bot w)) ->
  exists w',
    publish_all question_id ((b :: l1) ++ a :: l2) w = (Block, w')
    /\ answer_queues (bot w') !! question_id
       = Some (Queue.Make (Queue.maxsize (target question_id (bot w)))
                 (Queue.items (target question_id (bot w)) ++ b :: l1)).
Proof.
  intros Hpos Hlen. rewrite publish_all_app. unfold mbind, M_bind, bind.
  rewrite publish_all_room by (right; lia).
  cbn [publish_all]. unfold mbind, M_bind, bind.
  rewrite queue_answer_run, target_with_buffer.
  rewrite put_full.
  - eexists. split; [reflexivity|].
    match goal with
    | |- context [with_buffer question_id ?q w] =>
        pose proof (ensure_lookup question_id (bot (with_buffer question_id q w)))
          as He; rewrite target_with_buffer in He;
        destruct (with_buffer question_id q w) as [[] ? ?]
    end.
    exact He.
  - exact Hpos.
  - cbn [Queue.maxsize Queue.items]. rewrite length_app. cbn [length]. lia.
Qed.

(** X9. A worker that answers a question nobody polls waits for ever
    once the buffer is full: when the adapter is constructed and its stream has at least as many steps as
    the buffer has places, [start_answering] does not return; the buffer
    then holds the deltas of the first steps, as many as it has places, and
    the terminal fragment is not in it. *)
Theorem start_answering_waits_without_poller (chatbot : Chatbot) w question
    q' :
  Queue.get (question_queue (bot w)) = Some (question, q') ->
  Chatbot_new chatbot (access_token (bot w)) = None ->
  answer_queues (bot w) !! question_id question = None ->
  let s := chatbot (access_token (bot w)) (q_text question)
             (q_conversation_id question) (q_parent_id question)
             (ask_timeout (bot w)) in
  0 < answer_queue_max_size (bot w) ->
  answer_queue_max_size (bot w) <= length (steps s) ->
  exists w1,
    start_answering chatbot w = (Block, w1)
    /\ answer_queues (bot w1) !! question_id question
       = Some (Queue.Make (answer_queue_max_size (bot w))
                 (take (answer_queue_max_size (bot w)) (deltas (steps s) 0))).
Proof.
  intros Hget Hnew Hq s Hpos Hlen.
  pose proof (start_answering_publishes chatbot w question q' Hget Hnew)
    as [Hr [Hb _]].
  fold s in Hr, Hb.
  set (w0 := set_bot (with_question_queue q') w) in *.
  set (mx := answer_queue_max_size (bot w)) in *.
  assert (Ht : target (question_id question) (bot w0) = Queue.new mx).
  { unfold target, w0, mx. destruct w as [[] ? ?]. cbn in *. now rewrite Hq. }
  set (D := deltas (steps s) 0).
  assert (HD : length D = length (steps s)) by apply length_deltas.
  assert (Hsplit : published s = take mx D ++ (drop mx D ++ [closing s])).
  { unfold published. fold D. now rewrite app_assoc, take_drop. }
  destruct (take mx D) as [|b l1] eqn:Htake.
  { apply (f_equal length) in Htake. rewrite length_take in Htake.
    cbn in Htake. lia. }
  assert (Hl1 : S (length l1) = mx).
  { change (S (length l1)) with (length (b :: l1)). rewrite <- Htake.
    rewrite length_take. lia. }
  destruct (drop mx D ++ [closing s]) as [|a l2] eqn:Hdrop.
  { apply app_eq_nil in Hdrop as [_ Hdrop]. discriminate. }
  rewrite Hsplit in Hr, Hb.
  destruct (publish_all_fills (question_id question) b l1 a l2 w0)
    as (w' & Hrun & Hreg).
  { rewrite Ht. exact Hpos. }
  { rewrite Ht. cbn [Queue.new Queue.items Queue.maxsize length]. lia. }
  rewrite Hrun in Hr, Hb. cbn [fst snd] in Hr, Hb.
  rewrite Ht in Hreg. cbn [Queue.new Queue.items Queue.maxsize app] in Hreg.
  exists (snd (start_answering chatbot w)). split.
  - destruct (start_answering chatbot w) as [r w1]. cbn [fst snd] in *. now subst r.
  - rewrite Hb. exact Hreg.
Qed.

Lemma start_answering_waits_without_poller_witness :
  exists w1,
    start_answering long_chatbot hello_world = (Block, w1)
    /\ answer_queues (bot w1) !! "0"
       = Some (Queue.Make 64
                 (map delta_fragment (repeat ("x", None, None) 64))).
Proof.
  destruct (start_answering_waits_without_poller long_chatbot hello_world
              {| q_text := "hello"; q_conversation_id := None;
                 q_parent_id := None; question_id := "0" |}
              (Queue.Make 0 [])) as (w1 & H1 & H2).
  - reflexivity.
  - reflexivity.
  - reflexivity.
  - vm_compute. lia.
  - vm_compute. lia.
  - exists w1. split; [exact H1|].
    etransitivity; [exact H2 | vm_compute; reflexivity].
Defined.

(** ** Submissions and the worker *)

Lemma submit_all_run uuid4 texts w :
  Queue.maxsize (question_queue (bot w)) = 0 ->
  Queue.maxsize (question_queue (bot (submit_all uuid4 texts w))) = 0
  /\ Queue.items (question_queue (bot (submit_all uuid4 texts w)))
     = Queue.items (question_queue (bot w))
       ++ questions_of uuid4 (uuid_draws w) texts
  /\ answer_queues (bot (submit_all uuid4 texts w)) = answer_queues (bot w).
Proof.
  revert w. induction texts as [|t texts IH]; intros w Hmax.
  - cbn. rewrite app_nil_r. auto.
  - cbn [submit_all fold_left questions_of].
    rewrite (ask_run uuid4 t None None w Hmax). cbn [snd].
    match goal with
    | |- context [fold_left _ texts ?w1] =>
        destruct (IH w1) as (H1 & H2 & H3);
        [destruct w as [[] ? ?]; reflexivity|]
    end.
    unfold submit_all in *. rewrite H1, H2, H3.
    destruct w as [[] ? ?]. cbn. rewrite <- app_assoc. auto.
Qed.

Lemma take_questions_run n w :
  take_questions n w = take n (Queue.items (question_queue (bot w))).
Proof.
  revert w. induction n as [|n IH]; intros w; [reflexivity|].
  cbn [take_questions]. unfold question_queue_get, mbind, M_bind, bind, gets.
  unfold Queue.get. destruct (Queue.items (question_queue (bot w))) as [|q qs] eqn:E.
  - reflexivity.
  - cbn [modify mret M_ret ret]. rewrite IH.
    destruct w as [[] ? ?]. cbn in *. reflexivity.
Qed.

(** X10. The workers take the questions in the order of submission: after
    a series of submissions to a bot with an empty question queue, the
    questions that come off the queue are the submitted ones, in that
    order, each with the text it was submitted with and the identifier that
    was returned for it. *)
Theorem questions_taken_in_order uuid4 texts w :
  Queue.maxsize (question_queue (bot w)) = 0 ->
  Queue.items (question_queue (bot w)) = [] ->
  take_questions (length texts) (submit_all uuid4 texts w)
  = questions_of uuid4 (uuid_draws w) texts
  /\ map q_text (take_questions (length texts) (submit_all uuid4 texts w))
     = texts
  /\ map question_id (take_questions (length texts) (submit_all uuid4 texts w))
     = ask_all uuid4 texts w.
Proof.
  intros Hmax Hempty.
  destruct (submit_all_run uuid4 texts w Hmax) as (_ & Hitems & _).
  rewrite Hempty in Hitems. cbn [app] in Hitems.
  assert (Hlen : forall k, length (questions_of uuid4 k texts) = length texts).
  { clear. induction texts as [|t l IH]; intros k; cbn;
      [reflexivity | now rewrite IH]. }
  assert (H : take_questions (length texts) (submit_all uuid4 texts w)
              = questions_of uuid4 (uuid_draws w) texts).
  { rewrite take_questions_run, Hitems, <- (Hlen (uuid_draws w)).
    apply firstn_all. }
  rewrite H. split; [reflexivity|]. split.
  - clear. generalize (uuid_draws w).
    induction texts as [|t l IH]; intros k; cbn; [reflexivity | now rewrite IH].
  - rewrite ask_all_run by exact Hmax. clear. generalize (uuid_draws w).
    induction texts as [|t l IH]; intros k; cbn; [reflexivity | now rewrite IH].
Qed.

Lemma questions_taken_in_order_witness :
  map q_text
    (take_questions 3 (submit_all pretty ["a"; "b"; "c"] (World_init 4)))
  = ["a"; "b"; "c"].
Proof.
  destruct (questions_taken_in_order pretty ["a"; "b"; "c"] (World_init 4))
    as (_ & H & _).
  - reflexivity.
  - reflexivity.
  - exact H.
Defined.

(** X11. A submission registers no buffer: until the worker publishes for
    the first time, a poll of the identifier that [ask] has returned gets
    the answer of an unknown identifier. *)
Theorem poll_before_first_publish uuid4 text cid pid w :
  Queue.maxsize (question_queue (bot w)) = 0 ->
  answer_queues (bot w) !! uuid4 (uuid_draws w) = None ->
  exists question w1 w2,
    ask uuid4 text cid pid w = (Ret question, w1)
    /\ question_id question = uuid4 (uuid_draws w)
    /\ pop_answer (question_id question) w1 = (Ret no_buffer_answer, w2).
Proof.
  intros Hmax Hq. rewrite (ask_run _ _ _ _ _ Hmax).
  eexists _, _, _. split; [reflexivity|]. split; [reflexivity|].
  apply pop_answer_absent_run. destruct w as [[] ? ?]. exact Hq.
Qed.

Lemma poll_before_first_publish_witness :
  exists question w1 w2,
    ask pretty "hello" None None (World_init 4) = (Ret question, w1)
    /\ question_id question = "0"
    /\ pop_answer (question_id question) w1 = (Ret no_buffer_answer, w2).
Proof.
  exact (poll_before_first_publish pretty "hello" None None (World_init 4)
           eq_refl eq_refl).
Defined.

(** ** Streams that are not cumulative *)

Lemma slice_from_short n s : String.length s <= n -> slice_from n s = "".
Proof.
  revert s. induction n as [|n IH]; intros [|c s] H; cbn in *;
    [reflexivity | lia | reflexivity | apply IH; lia].
Qed.

Lemma deltas_shorter_message pre d1 d2 post text_pos :
  String.length (message d2) <= String.length (message d1) ->
  deltas (pre ++ d1 :: d2 :: post) text_pos !! S (length pre)
  = Some {| text := Some ""; conversation_id := s_conversation_id d2;
            parent_id := s_parent_id d2; finished := false |}.
Proof.
  intros Hlen. revert text_pos.
  induction pre as [|d pre IH]; intros text_pos.
  - cbn. now rewrite slice_from_short.
  - cbn [app deltas length]. apply IH.
Qed.

(** X12. The worker takes from a step the part of its message behind the
    length of the message before, whatever the two messages are.  So when
    the stream of the adapter has a step whose message is not longer than
    the message of the step before, [start_answering] raises nothing: it
    returns as for any other stream, with one fragment per step and the
    closing fragment in the buffer, and the fragment of that step has the
    empty text and the ids of the step. *)
Theorem shorter_message_gives_empty_delta (chatbot : Chatbot) w question q'
    pre d1 d2 post :
  Queue.get (question_queue (bot w)) = Some (question, q') ->
  Chatbot_new chatbot (access_token (bot w)) = None ->
  answer_queues (bot w) !! question_id question = None ->
  let s := chatbot (access_token (bot w)) (q_text question)
             (q_conversation_id question) (q_parent_id question)
             (ask_timeout (bot w)) in
  steps s = pre ++ d1 :: d2 :: post ->
  String.length (message d2) <= String.length (message d1) ->
  answer_queue_max_size (bot w) = 0
  \/ length (steps s) < answer_queue_max_size (bot w) ->
  exists w1 q,
    start_answering chatbot w = (Ret tt, w1)
    /\ answer_queues (bot w1) !! question_id question = Some q
    /\ length (Queue.items q) = S (length (steps s))
    /\ Queue.items q !! S (length pre)
       = Some {| text := Some ""; conversation_id := s_conversation_id d2;
                 parent_id := s_parent_id d2; finished := false |}.
Proof.
  intros Hget Hnew Hq s Hsteps Hlen Hroom.
  destruct (start_answering_run chatbot w question q' Hget Hnew Hq Hroom)
    as (w1 & Hrun & Hreg).
  fold s in Hreg. exists w1, (Queue.Make (answer_queue_max_size (bot w)) (published s)).
  split; [exact Hrun|]. split; [exact Hreg|]. cbn [Queue.items].
  unfold published. split.
  - rewrite length_app, length_deltas. cbn [length]. lia.
  - rewrite lookup_app_l.
    + rewrite Hsteps. now apply deltas_shorter_message.
    + rewrite length_deltas, Hsteps, length_app. cbn [length]. lia.
Qed.

(** The messages are ["abc"] and then ["ab"]: the second fragment has the
    empty text. *)
Lemma shorter_message_gives_empty_delta_witness :
  exists w1 q,
    start_answering shrinking_chatbot hello_world = (Ret tt, w1)
    /\ answer_queues (bot w1) !! "0" = Some q
    /\ length (Queue.items q) = 3
    /\ Queue.items q !! 1
       = Some {| text := Some ""; conversation_id := Some "c1";
                 parent_id := None; finished := false |}.
Proof.
  apply (shorter_message_gives_empty_delta shrinking_chatbot hello_world
           {| q_text := "hello"; q_conversation_id := None;
              q_parent_id := None; question_id := "0" |}
           (Queue.Make 0 []) []
           {| message := "abc"; s_conversation_id := None; s_parent_id := None |}
           {| message := "ab"; s_conversation_id := Some "c1";
              s_parent_id := None |} [] eq_refl eq_refl eq_refl eq_refl).
  - cbn. lia.
  - right. vm_compute. lia.
Defined.

(** ** A worker and a queue of questions *)

Lemma published_has_text s : Forall has_text (published s).
Proof.
  unfold published. apply Forall_app. split.
  - eapply Forall_impl; [apply deltas_nonterminal|]. intros a [_ Ht] _. exact Ht.
  - apply List.Forall_cons; [|apply List.Forall_nil].
    intros H. rewrite closing_finished in H. discriminate.
Qed.

(** With nothing in the question queue the turns of the loop change
    nothing. *)
Lemma worker_loop_idle (chatbot : Chatbot) n w :
  working (bot w) = true ->
  Queue.items (question_queue (bot w)) = [] ->
  worker_loop chatbot n w = (Ret false, w).
Proof.
  intros Hw Hq. induction n as [|n IH]; [reflexivity|].
  cbn [worker_loop]. unfold bind, is_working, gets. rewrite Hw.
  pose proof (start_answering_cases chatbot w) as H.
  unfold Queue.get in H. rewrite Hq in H. destruct H as [_ ->]. exact IH.
Qed.

Lemma worker_loop_answers (chatbot : Chatbot) extra qs :
  forall w,
    working (bot w) = true ->
    Chatbot_new chatbot (access_token (bot w)) = None ->
    Queue.items (question_queue (bot w)) = qs ->
    NoDup (map question_id qs) ->
    (forall q, q ∈ qs -> answer_queues (bot w) !! question_id q = None) ->
    (forall q, q ∈ qs ->
       answer_queue_max_size (bot w) = 0
       \/ length (steps (stream_for chatbot (bot w) q))
          < answer_queue_max_size (bot w)) ->
    exists w',
      worker_loop chatbot (length qs + extra) w = (Ret false, w')
      /\ Queue.items (question_queue (bot w')) = []
      /\ (forall q, q ∈ qs ->
           answer_queues (bot w') !! question_id q
           = Some (Queue.Make (answer_queue_max_size (bot w))
                     (published (stream_for chatbot (bot w) q))))
      /\ (forall j, j ∉ map question_id qs ->
           answer_queues (bot w') !! j = answer_queues (bot w) !! j).
Proof.
  induction qs as [|q qs IH]; intros w Hw Hnew Hitems Hnd Hfresh Hfit.
  - exists w. split; [now apply worker_loop_idle|]. split; [exact Hitems|].
    split; [intros q Hq; now apply elem_of_nil in Hq | reflexivity].
  - cbn [map] in Hnd. apply NoDup_cons in Hnd as [Hq Hnd].
    set (q' := Queue.Make (Queue.maxsize (question_queue (bot w))) qs).
    assert (Hget : Queue.get (question_queue (bot w)) = Some (q, q')).
    { unfold Queue.get. now rewrite Hitems. }
    destruct (start_answering_run chatbot w q q' Hget Hnew)
      as (w1 & Hrun & Hreg).
    { apply Hfresh. left. }
    { apply (Hfit q). left. }
    fold (stream_for chatbot (bot w) q) in Hreg.
    pose proof (start_answering_blind working chatbot w q q'
                  (fun _ _ _ => eq_refl) Hget) as Hk1.
    pose proof (start_answering_blind question_queue chatbot w q q'
                  (fun _ _ _ => eq_refl) Hget) as Hk2.
    pose proof (start_answering_blind access_token chatbot w q q'
                  (fun _ _ _ => eq_refl) Hget) as Hk3.
    pose proof (start_answering_blind ask_timeout chatbot w q q'
                  (fun _ _ _ => eq_refl) Hget) as Hk4.
    pose proof (start_answering_blind answer_queue_max_size chatbot w q q'
                  (fun _ _ _ => eq_refl) Hget) as Hk5.
    assert (Hother : forall j, question_id q <> j ->
              answer_queues (bot w1) !! j = answer_queues (bot w) !! j).
    { intros j Hj.
      pose proof (start_answering_foreign chatbot w q q' j Hget Hj) as H.
      now rewrite Hrun in H. }
    rewrite Hrun in Hk1, Hk2, Hk3, Hk4, Hk5. cbn [snd] in *.
    assert (Hstream : forall q2,
              stream_for chatbot (bot w1) q2 = stream_for chatbot (bot w) q2).
    { intros q2. unfold stream_for. rewrite Hk3, Hk4.
      destruct w as [[] ? ?]. reflexivity. }
    assert (Hmx : answer_queue_max_size (bot w1) = answer_queue_max_size (bot w)).
    { rewrite Hk5. destruct w as [[] ? ?]. reflexivity. }
    destruct (IH w1) as (w' & Hloop & Hempty & Hall & Hframe).
    + rewrite Hk1. destruct w as [[] ? ?]. exact Hw.
    + rewrite Hk3. destruct w as [[] ? ?]. exact Hnew.
    + rewrite Hk2. reflexivity.
    + exact Hnd.
    + intros q2 Hq2. rewrite Hother; [apply Hfresh; now right|].
      intros Heq. apply Hq. rewrite Heq. apply list_elem_of_fmap_2. exact Hq2.
    + intros q2 Hq2. rewrite Hstream, Hmx. apply Hfit. now right.
    + exists w'. split; [|split; [exact Hempty|split]].
      * cbn [length Nat.add worker_loop]. unfold bind at 1, is_working, gets.
        rewrite Hw. unfold bind.
        rewrite (worker_turn_start_answering _ _ _ _ Hget Hnew), Hrun.
        exact Hloop.
      * intros q2 Hq2. apply elem_of_cons in Hq2 as [-> | Hq2].
        -- rewrite Hframe by exact Hq. exact Hreg.
        -- rewrite (Hall q2 Hq2), Hstream, Hmx. reflexivity.
      * intros j Hj. cbn [map] in Hj. apply not_elem_of_cons in Hj as [Hj1 Hj2].
        rewrite (Hframe j Hj2). apply Hother. congruence.
Qed.

(** X13. A worker thread answers the questions of the queue one after the
    other, each into a buffer of its own: when the adapter can be
    constructed with the access token of the bot, the questions have distinct
    identifiers without buffers and each stream fits into a buffer, then
    after as many turns as there are questions, or more, the question
    queue is empty, the buffer of every question holds the fragments of
    its own stream and nothing else, so that the poll of a question
    returns its own text, and no other buffer has changed.  The thread is
    still in its loop. *)
Theorem worker_answers_each_question (chatbot : Chatbot) extra w :
  working (bot w) = true ->
  Chatbot_new chatbot (access_token (bot w)) = None ->
  NoDup (map question_id (Queue.items (question_queue (bot w)))) ->
  (forall q, q ∈ Queue.items (question_queue (bot w)) ->
     answer_queues (bot w) !! question_id q = None
     /\ (answer_queue_max_size (bot w) = 0
         \/ length (steps (stream_for chatbot (bot w) q))
            < answer_queue_max_size (bot w))) ->
  exists w',
    worker_thread_function chatbot
      (length (Queue.items (question_queue (bot w))) + extra) w
    = (Ret false, w')
    /\ Queue.items (question_queue (bot w')) = []
    /\ (forall q, q ∈ Queue.items (question_queue (bot w)) ->
         answer_queues (bot w') !! question_id q
         = Some (Queue.Make (answer_queue_max_size (bot w))
                   (published (stream_for chatbot (bot w) q)))
         /\ fst (pop_answer (question_id q) w')
            = Ret (aggregate (published (stream_for chatbot (bot w) q))))
    /\ (forall j, j ∉ map question_id (Queue.items (question_queue (bot w))) ->
         answer_queues (bot w') !! j = answer_queues (bot w) !! j).
Proof.
  intros Hw Hnew Hnd Hqs.
  unfold worker_thread_function, mbind, M_bind, bind, logger.
  match goal with
  | |- context [worker_loop chatbot _ ?w0] =>
      destruct (worker_loop_answers chatbot extra
                  (Queue.items (question_queue (bot w))) w0)
        as (w' & Hloop & Hempty & Hall & Hframe);
      [exact Hw | exact Hnew | reflexivity | exact Hnd
      | intros q Hq; apply (Hqs q Hq) | intros q Hq; apply (Hqs q Hq) |]
  end.
  cbn [bot] in *. exists w'. rewrite Hloop.
  split; [reflexivity|]. split; [exact Hempty|]. split; [|exact Hframe].
  intros q Hq. split; [exact (Hall q Hq)|].
  destruct (pop_answer_present_run (question_id q) w' _ (Hall q Hq))
    as (w2 & -> & _); [apply published_has_text | reflexivity].
Qed.

Lemma worker_answers_each_question_witness :
  exists w',
    worker_thread_function hello_chatbot 3 two_questions = (Ret false, w')
    /\ Queue.items (question_queue (bot w')) = []
    /\ answer_queues (bot w') !! "0"
       = Some (Queue.Make 64
                 [fragment "H"; fragment "e"; fragment "llo"; terminal])
    /\ answer_queues (bot w') !! "1"
       = Some (Queue.Make 64
                 [fragment "H"; fragment "e"; fragment "llo"; terminal]).
Proof.
  destruct (worker_answers_each_question hello_chatbot 1 two_questions)
    as (w' & H1 & H2 & H3 & _).
  - reflexivity.
  - reflexivity.
  - vm_compute. apply NoDup_cons. split.
    + intros H. apply list_elem_of_singleton in H. discriminate.
    + apply NoDup_singleton.
  - intros q Hq. vm_compute in Hq.
    apply elem_of_cons in Hq as [-> | Hq];
      [|apply list_elem_of_singleton in Hq; subst q];
      (split; [reflexivity | right; vm_compute; lia]).
  - exists w'. split; [exact H1|]. split; [exact H2|]. split.
    + apply (H3 {| q_text := "hello"; q_conversation_id := None;
                   q_parent_id := None; question_id := "0" |}).
      vm_compute. left.
    + apply (H3 {| q_text := "bye"; q_conversation_id := None;
                   q_parent_id := None; question_id := "1" |}).
      vm_compute. right. left.
Defined.

(** ** Who unregisters a buffer *)

Lemma queue_answer_keeps_registered i a j w :
  is_Some (answer_queues (bot w) !! j) ->
  is_Some (answer_queues (bot (snd (queue_answer i a w))) !! j).
Proof.
  intros Hj. rewrite queue_answer_run.
  destruct (Queue.put a (target i (bot w))); destruct w as [[] ? ?];
    cbn [snd set_bot bot with_lock with_answer_queues answer_queues] in *.
  - rewrite lookup_insert. case_decide; [now eexists | exact Hj].
  - unfold ensure. cbn [answer_queues answer_queue_max_size].
    destruct (_ !! i); [exact Hj|].
    rewrite lookup_insert. case_decide; [now eexists | exact Hj].
Qed.

Lemma publish_all_keeps_registered i l j w :
  is_Some (answer_queues (bot w) !! j) ->
  is_Some (answer_queues (bot (snd (publish_all i l w))) !! j).
Proof.
  revert w. induction l as [|a l IH]; intros w Hj; [exact Hj|].
  cbn [publish_all]. unfold mbind, M_bind, bind.
  pose proof (queue_answer_keeps_registered i a j w Hj) as H.
  destruct (queue_answer i a w) as [[[]|e|] w']; cbn [snd] in *;
    [apply IH|..]; exact H.
Qed.

(** X14. A buffer leaves the registry in one way only, by a poll of its
    own question that returns [finished]: publishing, answering and
    submitting keep every registered buffer registered, and if a buffer is
    gone after a poll, the poll was for that question and has returned an
    answer with [finished].  So the buffer of a question that is never
    polled to its end stays in the registry. *)
Theorem only_a_finished_poll_unregisters uuid4 (chatbot : Chatbot) i a text
    cid pid j w :
  is_Some (answer_queues (bot w) !! j) ->
  is_Some (answer_queues (bot (snd (queue_answer i a w))) !! j)
  /\ is_Some (answer_queues (bot (snd (start_answering chatbot w))) !! j)
  /\ is_Some (answer_queues (bot (snd (ask uuid4 text cid pid w))) !! j)
  /\ (answer_queues (bot (snd (pop_answer i w))) !! j = None ->
      i = j
      /\ exists answer,
           fst (pop_answer i w) = Ret answer /\ finished answer = true).
Proof.
  intros Hj. split; [now apply queue_answer_keeps_registered|].
  split; [|split].
  - pose proof (start_answering_cases chatbot w) as H.
    destruct (Queue.get (question_queue (bot w))) as [[question q']|] eqn:Hget.
    + destruct (Chatbot_new chatbot (access_token (bot w))) as [msg|] eqn:Hnew.
      * rewrite H. destruct w as [[] ? ?]. exact Hj.
      * destruct (start_answering_publishes chatbot w question q' Hget Hnew)
          as [_ [Hb _]].
        rewrite Hb. apply publish_all_keeps_registered.
        destruct w as [[] ? ?]. exact Hj.
    + destruct H as [-> _]. exact Hj.
  - unfold ask, Question_init, mbind, M_bind, bind, gets, modify, block, mret,
      M_ret, ret.
    cbn [bot]. destruct (Queue.put _ _); destruct w as [[] ? ?]; exact Hj.
  - destruct (decide (i = j)) as [<- | Hij].
    + intros Hnone. split; [reflexivity|]. revert Hnone.
      destruct Hj as [q Hq].
      unfold pop_answer, mbind, M_bind, bind.
      rewrite pop_answer_lookup_run, Hq. unfold pop_answer_loop.
      pose proof (drain_bot (Queue.items q) locals_init
                    (set_bot (with_lock false) w)) as [Hb _].
      destruct (drain (Queue.items q) locals_init (set_bot (with_lock false) w))
        as [rest [r w0]]. cbn [snd] in Hb.
      destruct w0 as [b0 ? ?]. cbn [bot] in Hb. subst b0.
      destruct w as [[] ? ?].
      destruct r as [st|e|]; cbn [fst snd set_bot bot].
      * unfold pop_answer_return. run_m.
        destruct (l_finished st) eqn:Hf; cbn [fst snd bot answer_queues].
        -- intros _. eexists. split; reflexivity.
        -- rewrite lookup_insert_eq. discriminate.
      * cbn. rewrite lookup_insert_eq. discriminate.
      * cbn. rewrite lookup_insert_eq. discriminate.
    + rewrite (pop_answer_foreign j i w Hij). intros Hnone.
      rewrite Hnone in Hj. destruct Hj as [? Hj]. discriminate.
Qed.

Lemma only_a_finished_poll_unregisters_witness :
  is_Some
    (answer_queues
       (bot (snd (start_answering hello_chatbot
                    (snd (ask pretty "hello" None None
                            (published_world [fragment "a"; terminal]))))))
     !! "q").
Proof.
  destruct (only_a_finished_poll_unregisters pretty hello_chatbot "q" terminal
              "" None None "q"
              (snd (ask pretty "hello" None None
                      (published_world [fragment "a"; terminal]))))
    as (_ & H & _).
  - vm_compute. now eexists.
  - exact H.
Defined.
